(** * ts-queue: the synchronous [Queue] and the [PromiseQueue]

    A shallow embedding of the class [Queue] (queue.ts) and of the class
    [PromiseQueue] (promise-queue.js), and the properties of the two.

    - [Js]: the JavaScript values and the array primitives the two classes
      use ([Array.isArray], indexing, [push], [splice], [== null]).
    - [Queue]: the synchronous FIFO/FILO queue; [toString] and the
      synchronous iterator are left out.
    - [PromiseQueue]: the queue of deferred calls with its one-slot cache of
      the head's outcome.  An operation acts on the queue object, on the
      world the queued functions read and change, and on the trace of the
      calls [func(...args)] made so far; it returns or throws.  [peek] is
      given in two halves, up to its [yield] and from it, so that calls
      that overlap can be told from calls awaited one after the other.
    - [Demo]: the queued functions of the test-suite and a few more, and
      concrete queues.
    - [JsFacts], [QueueFacts], [PromiseQueueFacts], [Scenarios]: the
      properties. *)

From Stdlib Require Import String DecimalString.
From Stdlib Require Import List ZArith Lia Bool Arith.
Import ListNotations.
Local Open Scope Z_scope.
Set Warnings "-register-all".

(* ------------------------------------------------------------------ *)
(** * JavaScript values and array primitives *)

Module Js.

(** The values that flow through the queues.  [VRec name message] is an
    object of the shape [{ name, message }], the shape of the two exported
    error constants and of the errors of the test-suite.  An array is
    given by its items and a value is finite: an array that holds itself
    is not among the values. *)
Inductive Val : Type :=
| VUndefined
| VNull
| VBool (b : bool)
| VNum (n : Z)
| VStr (s : string)
| VRec (name message : string)
| VArr (items : list Val).

(** [v == null]: loose equality with [null] holds of [null] and of
    [undefined], and of nothing else. *)
Definition eq_null (v : Val) : bool :=
  match v with
  | VUndefined | VNull => true
  | _ => false
  end.

(** [v != null]. *)
Definition neq_null (v : Val) : bool := negb (eq_null v).

(** [Array.isArray(v)], with the items of the array when it is one. *)
Definition isArray (v : Val) : option (list Val) :=
  match v with
  | VArr items => Some items
  | _ => None
  end.

(** [a[i]] for an integer index; [None] stands for the [undefined] that
    JavaScript gives out of range. *)
Definition at_index {A : Type} (a : list A) (i : Z) : option A :=
  if i <? 0 then None else nth_error a (Z.to_nat i).

(** [a[i]] in an array of values. *)
Definition index (a : list Val) (i : Z) : Val :=
  match at_index a i with
  | Some v => v
  | None => VUndefined
  end.

(** How a call ends: [return a] or [throw e]. *)
Inductive Completion (A : Type) : Type :=
| Return (a : A)
| Throw (e : Val).
Arguments Return {A} a.
Arguments Throw {A} e.

(** The [RangeError] of a call with more arguments than the engine
    passes. *)
Definition RangeError : Val :=
  VRec "RangeError" "Maximum call stack size exceeded".

(** [a.push.apply(a, items)]: the items are spread as the arguments of one
    call of [push].  An engine passes at most [apply_limit] arguments;
    with more, the call throws a [RangeError] before anything is pushed. *)
Definition push_apply (apply_limit : Z) (a items : list Val)
  : Completion (list Val) :=
  if Z.of_nat (length items) <=? apply_limit then Return (a ++ items)
  else Throw RangeError.

(** The [TypeError] of destructuring [undefined]. *)
Definition TypeError : Val :=
  VRec "TypeError" "Cannot destructure property 'func' of undefined.".

(** [a.splice(start, deleteCount)] with both arguments integers: the pair
    of the removed items and of what is left of [a].

    relativeStart < 0 ? max(len + relativeStart, 0) : min(relativeStart, len);
    actualDeleteCount = min(max(deleteCount, 0), len - actualStart). *)
Definition splice_start {A : Type} (a : list A) (start : Z) : nat :=
  let len := Z.of_nat (length a) in
  Z.to_nat (if start <? 0 then Z.max (len + start) 0 else Z.min start len).

Definition splice_count {A : Type} (a : list A) (start deleteCount : Z) : nat :=
  let len := Z.of_nat (length a) in
  Z.to_nat (Z.min (Z.max deleteCount 0) (len - Z.of_nat (splice_start a start))).

Definition splice {A : Type} (a : list A) (start deleteCount : Z)
  : list A * list A :=
  let s := splice_start a start in
  let c := splice_count a start deleteCount in
  (firstn c (skipn s a), firstn s a ++ skipn (s + c) a).

End Js.

(* ------------------------------------------------------------------ *)
(** * [Queue<T>], the synchronous queue (queue.ts) *)

Module Queue.
Import Js.

(** The two private fields of the class. *)
Record t : Type := mk { _array : list Val; _fifo : bool }.

(** [export const QueueEmptyError]. *)
Definition QueueEmptyError : Val := VRec "QueueEmpty" "The queue is empty.".

(** [constructor(initial?)]: [this._array = initial || []], FIFO. *)
Definition create (initial : option (list Val)) : t :=
  {| _array := match initial with Some a => a | None => [] end;
     _fifo := true |}.

(** [add(item)]: [push.apply(this._array, item)] for an array, [push(item)]
    otherwise; what the call gives (the queue itself, or the exception of
    [push.apply]) and the queue after it.  [apply_limit] is the number of
    arguments the engine passes. *)
Definition add (apply_limit : Z) (item : Val) (q : t) : Completion unit * t :=
  match isArray item with
  | Some items =>
      match push_apply apply_limit (_array q) items with
      | Return a => (Return tt, {| _array := a; _fifo := _fifo q |})
      | Throw e => (Throw e, q)
      end
  | None => (Return tt, {| _array := _array q ++ [item]; _fifo := _fifo q |})
  end.

Definition clear (q : t) : t := {| _array := []; _fifo := _fifo q |}.

Definition size (q : t) : Z := Z.of_nat (length (_array q)).

Definition toArray (q : t) : list Val := _array q.

(** [this._fifo ? 0 : this._array.length - 1]. *)
Definition nextIndex (q : t) : Z :=
  if _fifo q then 0 else Z.of_nat (length (_array q)) - 1.

Definition element (q : t) : Completion Val :=
  if Z.of_nat (length (_array q)) =? 0 then Throw QueueEmptyError
  else Return (index (_array q) (nextIndex q)).

Definition peek (q : t) : Val :=
  if 0 <? Z.of_nat (length (_array q)) then index (_array q) (nextIndex q)
  else VNull.

(** [this._array.splice(this.nextIndex(), 1)[0]], and the queue after it. *)
Definition take_next (q : t) : Val * t :=
  let '(removed, rest) := splice (_array q) (nextIndex q) 1 in
  (index removed 0, {| _array := rest; _fifo := _fifo q |}).

Definition remove (q : t) : Completion Val * t :=
  if Z.of_nat (length (_array q)) =? 0 then (Throw QueueEmptyError, q)
  else let '(v, q') := take_next q in (Return v, q').

Definition poll (q : t) : Val * t :=
  if 0 <? Z.of_nat (length (_array q)) then take_next q else (VNull, q).

Definition useFIFO (q : t) : t := {| _array := _array q; _fifo := true |}.
Definition useFILO (q : t) : t := {| _array := _array q; _fifo := false |}.

(** [n] calls of [poll] in a row: the values returned, and the queue left. *)
Fixpoint polls (n : nat) (q : t) : list Val * t :=
  match n with
  | O => ([], q)
  | S n' =>
      let '(v, q1) := poll q in
      let '(vs, q2) := polls n' q1 in
      (v :: vs, q2)
  end.

(** A sequence of [add] calls, one per argument, the exception of a call
    that throws being caught: the queue after the last. *)
Definition adds (apply_limit : Z) (items : list Val) (q : t) : t :=
  fold_left (fun q item => snd (add apply_limit item q)) items q.

(** What a sequence of [add] calls inserts, in insertion order: an item
    itself, the items of an array, nothing for an array that [push.apply]
    refuses. *)
Definition inserted (apply_limit : Z) (items : list Val) : list Val :=
  flat_map (fun item => match isArray item with
                        | Some xs =>
                            if Z.of_nat (length xs) <=? apply_limit then xs
                            else []
                        | None => [item]
                        end) items.

(** [IteratorResult<T>]. *)
Record IterResult : Type := iter_result { value : Val; done : bool }.

(** The [next()] of the object [Symbol.iterator] returns:
    [done = queue.size() == 0; value = queue.poll()]. *)
Definition iter_next (q : t) : IterResult * t :=
  let done := size q =? 0 in
  let '(v, q') := poll q in
  ({| value := v; done := done |}, q').

(** Its [return()], called when a loop is left early. *)
Definition iter_return (q : t) : IterResult * t :=
  ({| value := peek q; done := true |}, q).

(** [for (const v of q) { ... }] run to its end: [next()] is called for
    each turn until it reports [done]; the values the body received
    ([seen] being those received before) and the queue left.  [None] when
    [fuel] turns were not enough. *)
Fixpoint for_of (fuel : nat) (seen : list Val) (q : t)
  : option (list Val * t) :=
  match fuel with
  | O => None
  | S fuel' =>
      let '(r, q1) := iter_next q in
      if done r then Some (seen, q1)
      else for_of fuel' (seen ++ [value r]) q1
  end.

(** [for (const v of q) { ...; if (k values seen) break }]: the loop ends
    when [done] is reported, or with the [break] in the k-th turn, which
    calls [return()]. *)
Fixpoint for_of_break (k : nat) (seen : list Val) (q : t) : list Val * t :=
  match k with
  | O => (seen, q)
  | S k' =>
      let '(r, q1) := iter_next q in
      if done r then (seen, q1)
      else if (k' =? 0)%nat then
        let '(_, q2) := iter_return q1 in (seen ++ [value r], q2)
      else for_of_break k' (seen ++ [value r]) q1
  end.

(** [strings.join(sep)] for an array of strings. *)
Fixpoint join (sep : string) (l : list string) : string :=
  match l with
  | [] => EmptyString
  | [x] => x
  | x :: r => (x ++ sep ++ join sep r)%string
  end.

(** [toString(element?)]; [stringify el] is the default ['' + el]. *)
Definition toString (stringify : Val -> string)
    (element : option (Val -> string)) (q : t) : string :=
  let element := match element with Some f => f | None => stringify end in
  join (if _fifo q then " <- " else " -> ") (map element (_array q)).

(** The items in the order in which [poll] takes them. *)
Definition access_order (q : t) : list Val :=
  if _fifo q then _array q else rev (_array q).

End Queue.

(* ------------------------------------------------------------------ *)
(** * [PromiseQueue<T>], the queue of deferred calls (promise-queue.js) *)

Module PromiseQueue.
Import Js.

(** A queued function is known by its name; what calling it does is given
    by the environment [call] below. *)
Definition Func : Type := string.

(** [interface PromiseQueueItem<T> { func; args }]. *)
Record PromiseQueueItem : Type := item { func : Func; args : list Val }.

(** The five private fields of the class. *)
Record t : Type := mk {
  _array : list PromiseQueueItem;
  _cached : bool;
  _result : Val;
  _error : Val;
  _fifo : bool
}.

(** [exports.PromiseQueueEmptyError]. *)
Definition PromiseQueueEmptyError : Val :=
  VRec "PromiseQueueEmpty" "The Promise queue is empty.".

(** [constructor()]. *)
Definition create : t :=
  {| _array := []; _cached := false; _result := VNull; _error := VNull;
     _fifo := true |}.

Definition set_array (a : list PromiseQueueItem) (q : t) : t :=
  {| _array := a; _cached := _cached q; _result := _result q;
     _error := _error q; _fifo := _fifo q |}.

Definition set_cached (b : bool) (q : t) : t :=
  {| _array := _array q; _cached := b; _result := _result q;
     _error := _error q; _fifo := _fifo q |}.

Definition set_result (v : Val) (q : t) : t :=
  {| _array := _array q; _cached := _cached q; _result := v;
     _error := _error q; _fifo := _fifo q |}.

Definition set_error (e : Val) (q : t) : t :=
  {| _array := _array q; _cached := _cached q; _result := _result q;
     _error := e; _fifo := _fifo q |}.

Definition set_fifo (b : bool) (q : t) : t :=
  {| _array := _array q; _cached := _cached q; _result := _result q;
     _error := _error q; _fifo := b |}.

(** [add(func, ...args)]: pushes
    [{ func, args: (args == null || args.length == 0) ? [] : args }]. *)
Definition add (f : Func) (rest : list Val) (q : t) : t :=
  set_array
    (_array q ++ [ {| func := f;
                      args := match rest with [] => [] | _ => rest end |} ])
    q.

Definition clear (q : t) : t :=
  set_error VNull (set_result VNull (set_cached false (set_array [] q))).

Definition size (q : t) : Z := Z.of_nat (length (_array q)).

Definition toArray (q : t) : list PromiseQueueItem := _array q.

(** [this._fifo ? 0 : this._array.length - 1]. *)
Definition nextIndex (q : t) : Z :=
  if _fifo q then 0 else Z.of_nat (length (_array q)) - 1.

(** [this._fifo ? 0 : Math.max(0, this._array.length - size)]. *)
Definition nextBatchIndex (q : t) (size : Z) : Z :=
  if _fifo q then 0 else Z.max 0 (Z.of_nat (length (_array q)) - size).

Definition useFIFO (q : t) : t := set_fifo true q.
Definition useFILO (q : t) : t := set_fifo false q.

(** The end of the [try] block of [peek]:
    [this._result = v; this._error = null; this._cached = true]. *)
Definition cache_result (v : Val) (q : t) : t :=
  set_cached true (set_error VNull (set_result v q)).

(** The [catch] block of [peek]:
    [this._cached = true; this._result = null; this._error = error]. *)
Definition cache_error (e : Val) (q : t) : t :=
  set_error e (set_result VNull (set_cached true q)).

(** What [peek] stores for an evaluation that ended with [c]. *)
Definition cache_outcome (c : Completion Val) (q : t) : t :=
  match c with
  | Return v => cache_result v q
  | Throw e => cache_error e q
  end.

(** The cache slot as the code reads it in [peek] and in [poll]: present
    when [_cached], a failure when [_error != null], a success otherwise. *)
Inductive Cache : Type :=
| Absent
| Success (v : Val)
| Failure (e : Val).

Definition cache (q : t) : Cache :=
  if _cached q then
    if neq_null (_error q) then Failure (_error q) else Success (_result q)
  else Absent.

(** The cache fields never hold an error together with a result. *)
Definition cache_tidy (q : t) : Prop :=
  neq_null (_error q) = true -> _result q = VNull.

(** The completion that delivers a cached outcome. *)
Definition deliver (c : Cache) : option (Completion Val) :=
  match c with
  | Absent => None
  | Success v => Some (Return v)
  | Failure e => Some (Throw e)
  end.

(** The entries in the order in which [poll] takes them. *)
Definition access_order (q : t) : list PromiseQueueItem :=
  if _fifo q then _array q else rev (_array q).

(** The array in which the entries [l], listed in access order, are
    stored by a queue in the mode of [q]. *)
Definition stored (q : t) (l : list PromiseQueueItem)
  : list PromiseQueueItem :=
  if _fifo q then l else rev l.

(** The entry at the head position: index 0 under FIFO, the last index
    under FILO. *)
Definition head (q : t) : option PromiseQueueItem :=
  at_index (_array q) (nextIndex q).

(** A promise that settles [delay] milliseconds after the call that made
    it, by fulfilling with a value or by rejecting with a reason. *)
Inductive Promise : Type :=
| Fulfilled (v : Val) (delay : nat)
| Rejected (e : Val) (delay : nat).

(** What [func(...args)] gives its caller: a promise, or an exception
    thrown before any promise is returned. *)
Inductive CallResult : Type :=
| Returns (p : Promise)
| Raises (e : Val).

(** [await p]. *)
Definition settle (p : Promise) : Completion Val :=
  match p with
  | Fulfilled v _ => Return v
  | Rejected e _ => Throw e
  end.

(** The rejection that settles first among [ps], with its delay; of two
    rejections with one delay, the one of the earlier promise. *)
Fixpoint first_rejection (ps : list Promise) : option (Val * nat) :=
  match ps with
  | [] => None
  | Fulfilled _ _ :: ps' => first_rejection ps'
  | Rejected e d :: ps' =>
      match first_rejection ps' with
      | Some (e', d') => if (d' <? d)%nat then Some (e', d') else Some (e, d)
      | None => Some (e, d)
      end
  end.

(** The values of the fulfilled promises of [ps], in the order of [ps]. *)
Fixpoint fulfilments (ps : list Promise) : list Val :=
  match ps with
  | [] => []
  | Fulfilled v _ :: ps' => v :: fulfilments ps'
  | Rejected _ _ :: ps' => fulfilments ps'
  end.

(** [await Promise.all(ps)]: the array of the values when every promise
    fulfils, the first rejection otherwise. *)
Definition Promise_all (ps : list Promise) : Completion Val :=
  match first_rejection ps with
  | Some (e, _) => Throw e
  | None => Return (VArr (fulfilments ps))
  end.

(** [IteratorResult<T>]. *)
Record IterResult : Type := iter_result { value : Val; done : bool }.

(** An [async] method stopped at its first [yield]: finished already, or
    waiting for a promise. *)
Inductive Suspended : Type :=
| Done (c : Completion Val)
| Await (p : Promise).

(** The public operations, for sequences of calls. *)
Inductive Op : Type :=
| Add (f : Func) (rest : list Val)
| Clear
| Element
| Peek
| Remove
| Poll
| Batch (n : Z)
| UseFIFO
| UseFILO.

(** The operations that keep the cache with the head of a FIFO queue. *)
Definition keeps_cache (o : Op) : bool :=
  match o with
  | Add _ _ | Clear | Element | Peek | Remove | Poll => true
  | Batch _ | UseFIFO | UseFILO => false
  end.

Section Machine.

(** The world the queued functions read and change, and what a call
    [func(...args)] does in it.  A queued function does not call back into
    the queue that holds it, and every promise it returns settles. *)
Variable World : Type.
Variable call : Func -> list Val -> World -> CallResult * World.

(** The queue object, the world, and the trace of the calls
    [func(...args)] made so far, oldest first. *)
Record Sys : Type := sys {
  queue : t;
  world : World;
  calls : list PromiseQueueItem
}.

Definition with_queue (f : t -> t) (s : Sys) : Sys :=
  {| queue := f (queue s); world := world s; calls := calls s |}.

(** [func(...args)]: the call is made in the current world and recorded. *)
Definition invoke (it : PromiseQueueItem) (s : Sys) : CallResult * Sys :=
  let '(r, w) := call (func it) (args it) (world s) in
  (r, {| queue := queue s; world := w; calls := calls s ++ [it] |}).

(** Calls that read or change the state and return or throw. *)
Definition M (A : Type) : Type := Sys -> Completion A * Sys.

Definition ret {A : Type} (a : A) : M A := fun s => (Return a, s).

Definition throw {A : Type} (e : Val) : M A := fun s => (Throw e, s).

Definition bind {A B : Type} (m : M A) (k : A -> M B) : M B :=
  fun s =>
    match m s with
    | (Return a, s') => k a s'
    | (Throw e, s') => (Throw e, s')
    end.

Notation "x <- m ;; k" := (bind m (fun x => k))
  (at level 61, m at next level, right associativity).

(** [peek] up to its [yield func(...args)].  A function that throws
    instead of returning a promise lands in the [catch] block at once. *)
Definition peek_start (s : Sys) : Suspended * Sys :=
  let q := queue s in
  if _cached q then
    if neq_null (_error q) then (Done (Throw (_error q)), s)
    else (Done (Return (_result q)), s)
  else if 0 <? Z.of_nat (length (_array q)) then
    match at_index (_array q) (nextIndex q) with
    | None => (Done (Throw TypeError), s)
    | Some it =>
        match invoke it s with
        | (Returns p, s1) => (Await p, s1)
        | (Raises e, s1) =>
            (Done (Throw e), with_queue (cache_error e) s1)
        end
    end
  else (Done (Return VNull), s).

(** [peek] from the moment the awaited promise settles: the rest of the
    [try] block, or the [catch] block. *)
Definition peek_resume (p : Promise) (s : Sys) : Completion Val * Sys :=
  match p with
  | Fulfilled v _ =>
      (Return v, with_queue (cache_result v) s)
  | Rejected e _ =>
      (Throw e, with_queue (cache_error e) s)
  end.

(** [await q.peek()], nothing else running in between. *)
Definition peek : M Val := fun s =>
  match peek_start s with
  | (Done c, s') => (c, s')
  | (Await p, s') => peek_resume p s'
  end.

(** [await q.element()]. *)
Definition element : M Val :=
  el <- peek ;;
  if eq_null el then throw PromiseQueueEmptyError else ret el.

(** [await q.poll()]. *)
Definition poll : M Val := fun s =>
  let q := queue s in
  if Z.of_nat (length (_array q)) =? 0 then (Return VNull, s)
  else
    let '(removed, rest) := splice (_array q) (nextIndex q) 1 in
    let s1 := with_queue (set_array rest) s in
    match at_index removed 0 with
    | None => (Throw TypeError, s1)
    | Some it =>
        if _cached q then
          let s2 := with_queue (set_cached false) s1 in
          if neq_null (_error q) then (Throw (_error q), s2)
          else (Return (_result q), s2)
        else
          match invoke it s1 with
          | (Returns p, s2) => (settle p, s2)
          | (Raises e, s2) => (Throw e, s2)
          end
    end.

(** [await q.remove()]. *)
Definition remove : M Val :=
  el <- poll ;;
  if eq_null el then throw PromiseQueueEmptyError else ret el.

(** [next.map(({ func, args }) => func(...args))]: the calls are made in
    the order of [next]; a function that throws ends the [map]. *)
Fixpoint map_invoke (next : list PromiseQueueItem) (s : Sys)
  : Completion (list Promise) * Sys :=
  match next with
  | [] => (Return [], s)
  | it :: next' =>
      match invoke it s with
      | (Raises e, s1) => (Throw e, s1)
      | (Returns p, s1) =>
          match map_invoke next' s1 with
          | (Return ps, s2) => (Return (p :: ps), s2)
          | (Throw e, s2) => (Throw e, s2)
          end
      end
  end.

(** [await q.batch(size)], [size] an integer. *)
Definition batch (size : Z) : M Val := fun s =>
  let q := queue s in
  if (Z.of_nat (length (_array q)) =? 0) || (size <? 1) then (Return (VArr []), s)
  else
    let '(next, rest) := splice (_array q) (nextBatchIndex q size) size in
    let s1 := with_queue (set_array rest) s in
    match map_invoke next s1 with
    | (Return ps, s2) => (Promise_all ps, s2)
    | (Throw e, s2) => (Throw e, s2)
    end.

(** The [next()] of the object [Symbol.asyncIterator] returns. *)
Definition iter_next : M IterResult := fun s =>
  let done := size (queue s) =? 0 in
  (value <- poll ;; ret {| value := value; done := done |}) s.

(** Its [return()], called when a loop is left early. *)
Definition iter_return : M IterResult :=
  value <- peek ;; ret {| value := value; done := true |}.

(** [for await (const v of q) { ...; if (k values seen) break }], for
    [k >= 1]: [next()] is awaited for each turn of the loop; the loop ends
    when [done] is reported, or when [next()] throws (the exception goes
    to the consumer and [return()] is not called), or with the [break] in
    the k-th turn, which awaits [return()].  Gives the values the body
    received, [seen] being those received before. *)
Fixpoint for_await_break (k : nat) (seen : list Val) : M (list Val) :=
  match k with
  | O => ret seen
  | S k' =>
      r <- iter_next ;;
      if done r then ret seen
      else if (k' =? 0)%nat then
        _ <- iter_return ;; ret (seen ++ [value r])
      else for_await_break k' (seen ++ [value r])
  end.

(** What the caller that awaits [func(...args)] gets. *)
Definition outcome (r : CallResult) : Completion Val :=
  match r with
  | Returns p => settle p
  | Raises e => Throw e
  end.

(** Each function of [next], called in turn from world [w], returns a
    promise that fulfils; [vs] are the values and [w'] is the world after
    the last call. *)
Inductive all_fulfil : list PromiseQueueItem -> World -> list Val -> World -> Prop :=
| all_fulfil_nil (w : World) : all_fulfil [] w [] w
| all_fulfil_cons (it : PromiseQueueItem) (next : list PromiseQueueItem)
    (w w1 w2 : World) (v : Val) (d : nat) (vs : list Val) :
    call (func it) (args it) w = (Returns (Fulfilled v d), w1) ->
    all_fulfil next w1 vs w2 ->
    all_fulfil (it :: next) w (v :: vs) w2.

Definition delay_of (p : Promise) : nat :=
  match p with
  | Fulfilled _ d => d
  | Rejected _ d => d
  end.

(** [const p1 = q.peek(); const p2 = q.peek(); await p1; await p2]: the
    second call is made before anything the first one waits for has
    settled; each call runs to its [yield], then the calls that wait are
    resumed as their promises settle, the shorter delay first. *)
Definition peek_overlapped (s : Sys) : Completion Val * Completion Val * Sys :=
  let '(r1, s1) := peek_start s in
  let '(r2, s2) := peek_start s1 in
  match r1, r2 with
  | Done c1, Done c2 => (c1, c2, s2)
  | Done c1, Await p2 =>
      let '(c2, s3) := peek_resume p2 s2 in (c1, c2, s3)
  | Await p1, Done c2 =>
      let '(c1, s3) := peek_resume p1 s2 in (c1, c2, s3)
  | Await p1, Await p2 =>
      if (delay_of p2 <? delay_of p1)%nat then
        let '(c2, s3) := peek_resume p2 s2 in
        let '(c1, s4) := peek_resume p1 s3 in (c1, c2, s4)
      else
        let '(c1, s3) := peek_resume p1 s2 in
        let '(c2, s4) := peek_resume p2 s3 in (c1, c2, s4)
  end.

(** [n] calls of [peek] in a row, each awaited before the next: what each
    gave, and the state after the last. *)
Fixpoint peeks (n : nat) (s : Sys) : list (Completion Val) * Sys :=
  match n with
  | O => ([], s)
  | S n' =>
      let '(c, s1) := peek s in
      let '(cs, s2) := peeks n' s1 in
      (c :: cs, s2)
  end.

(** One public operation, its result dropped. *)
Definition step (o : Op) (s : Sys) : Sys :=
  match o with
  | Add f rest => with_queue (add f rest) s
  | Clear => with_queue clear s
  | Element => snd (element s)
  | Peek => snd (peek s)
  | Remove => snd (remove s)
  | Poll => snd (poll s)
  | Batch n => snd (batch n s)
  | UseFIFO => with_queue useFIFO s
  | UseFILO => with_queue useFILO s
  end.

(** [n] calls of [poll] in a row, each awaited before the next: what each
    gave, and the state after the last. *)
Fixpoint polls (n : nat) (s : Sys) : list (Completion Val) * Sys :=
  match n with
  | O => ([], s)
  | S n' =>
      let '(c, s1) := poll s in
      let '(cs, s2) := polls n' s1 in
      (c :: cs, s2)
  end.

(** Each function of [next], called in turn from world [w], returns a
    promise; [ps] are the promises and [w'] is the world after the last
    call. *)
Inductive all_return : list PromiseQueueItem -> World -> list Promise -> World -> Prop :=
| all_return_nil (w : World) : all_return [] w [] w
| all_return_cons (it : PromiseQueueItem) (next : list PromiseQueueItem)
    (w w1 w2 : World) (p : Promise) (ps : list Promise) :
    call (func it) (args it) w = (Returns p, w1) ->
    all_return next w1 ps w2 ->
    all_return (it :: next) w (p :: ps) w2.

(** [for await (const v of q) { ... }] run to its end: [next()] is awaited
    for each turn until it reports [done] or throws; the values the body
    received ([seen] being those received before), or the exception.
    [None] when [fuel] turns were not enough. *)
Fixpoint for_await (fuel : nat) (seen : list Val) (s : Sys)
  : option (Completion (list Val) * Sys) :=
  match fuel with
  | O => None
  | S fuel' =>
      match iter_next s with
      | (Throw e, s1) => Some (Throw e, s1)
      | (Return r, s1) =>
          if done r then Some (Return seen, s1)
          else for_await fuel' (seen ++ [value r]) s1
      end
  end.

(** What the caller of one public operation gets; the chaining operations
    return the queue itself and give nothing here. *)
Definition result_of (o : Op) (s : Sys) : option (Completion Val) :=
  match o with
  | Element => Some (fst (element s))
  | Peek => Some (fst (peek s))
  | Remove => Some (fst (remove s))
  | Poll => Some (fst (poll s))
  | Batch n => Some (fst (batch n s))
  | _ => None
  end.

(** What the calls of a sequence of public operations give, in order. *)
Fixpoint results (ops : list Op) (s : Sys) : list (Completion Val) :=
  match ops with
  | [] => []
  | o :: ops' =>
      match result_of o s with
      | Some c => c :: results ops' (step o s)
      | None => results ops' (step o s)
      end
  end.

(** A sequence of public operations, each awaited before the next. *)
Definition run (ops : list Op) (s : Sys) : Sys :=
  fold_left (fun s o => step o s) ops s.

(** A new queue in world [w], nothing called yet. *)
Definition init (w : World) : Sys :=
  {| queue := create; world := w; calls := [] |}.

(** The states that sequences of public operations reach. *)
Definition reachable (s : Sys) : Prop :=
  exists (w : World) (ops : list Op), s = run ops (init w).

(** On a FIFO queue: a cache that is present belongs to the entry at
    index 0, and that entry is the last one that was called. *)
Definition cache_of_head (s : Sys) : Prop :=
  _fifo (queue s) = true /\
  (_cached (queue s) = true ->
   exists h rest pre, _array (queue s) = h :: rest /\ calls s = pre ++ [h]).

End Machine.

Arguments sys {World} _ _ _.
Arguments queue {World} _.
Arguments world {World} _.
Arguments calls {World} _.
Arguments with_queue {World} _ _.
Arguments ret {World A} _ _.
Arguments throw {World A} _ _.
Arguments bind {World A B} _ _ _.
Arguments init {World} _.
Arguments invoke {World} call it s.
Arguments peek_start {World} call s.
Arguments peek_resume {World} p s.
Arguments peek {World} call s.
Arguments element {World} call s.
Arguments poll {World} call s.
Arguments remove {World} call s.
Arguments map_invoke {World} call next s.
Arguments batch {World} call size s.
Arguments iter_next {World} call s.
Arguments iter_return {World} call s.
Arguments for_await_break {World} call k seen s.
Arguments all_fulfil {World} call _ _ _ _.
Arguments peek_overlapped {World} call s.
Arguments peeks {World} call n s.
Arguments polls {World} call n s.
Arguments all_return {World} call _ _ _ _.
Arguments for_await {World} call fuel seen s.
Arguments step {World} call o s.
Arguments run {World} call ops s.
Arguments result_of {World} call o s.
Arguments results {World} call ops s.
Arguments reachable {World} call s.
Arguments cache_of_head {World} s.

End PromiseQueue.

(* ------------------------------------------------------------------ *)
(** * Queued functions of the test-suite, and concrete queues *)

Module Demo.
Import Js PromiseQueue.
Local Open Scope string_scope.

(** The sum of the numbers among [vs]. *)
Fixpoint sum (vs : list Val) : Z :=
  match vs with
  | [] => 0
  | VNum n :: vs' => n + sum vs'
  | _ :: vs' => sum vs'
  end.

(** An engine that passes up to 100000 arguments to a call. *)
Definition apply_limit : Z := 100000.

(** The world of the functions below: the last ticket handed out. *)
Definition World : Type := nat.

(** - [asyncAdd = async (...nums) => nums.reduce((a, b) => a + b, 0)]
    - [timeoutResult = (value, delay) =>
         new Promise(resolve => setTimeout(() => resolve(value), delay))]
    - [resolveWith = async (v) => v]
    - [rejectWith = (e) => Promise.reject(e)]
    - [throwNow = (e) => { throw e }]
    - [ticket = async () => ++count]
    - anything else: [async () => {}]. *)
Definition call (f : Func) (args : list Val) (w : World) : CallResult * World :=
  if f =? "asyncAdd" then (Returns (Fulfilled (VNum (sum args)) 0), w)
  else if f =? "timeoutResult" then
    match index args 1 with
    | VNum d => (Returns (Fulfilled (index args 0) (Z.to_nat d)), w)
    | _ => (Returns (Fulfilled (index args 0) 0), w)
    end
  else if f =? "resolveWith" then (Returns (Fulfilled (index args 0) 0), w)
  else if f =? "rejectWith" then (Returns (Rejected (index args 0) 0), w)
  else if f =? "throwNow" then (Raises (index args 0), w)
  else if f =? "ticket" then (Returns (Fulfilled (VNum (Z.of_nat (S w))) 0), S w)
  else (Returns (Fulfilled VUndefined 0), w).

(** [{ name: 'MockError', message: 'This is a mock error' }]. *)
Definition MockError : Val := VRec "MockError" "This is a mock error".

(** A new queue, no ticket handed out. *)
Definition fresh : Sys World := init 0%nat.

(** Entries that resolve to 1, to 5 and to 15. *)
Definition one : PromiseQueueItem := item "asyncAdd" [VNum 1].
Definition five : PromiseQueueItem := item "asyncAdd" [VNum 2; VNum 3].
Definition fifteen : PromiseQueueItem :=
  item "asyncAdd" [VNum 4; VNum 5; VNum 6].

(** [q.add(asyncAdd, 1); q.add(asyncAdd, 2, 3); q.add(asyncAdd, 4, 5, 6)]
    on a new queue. *)
Definition three_sums : Sys World :=
  run call [Add "asyncAdd" [VNum 1]; Add "asyncAdd" [VNum 2; VNum 3];
            Add "asyncAdd" [VNum 4; VNum 5; VNum 6]] fresh.

(** [q.add(ticket)] on a new queue. *)
Definition one_ticket : Sys World := run call [Add "ticket" []] fresh.

(** [q.add(() => Promise.reject())] on a new queue. *)
Definition one_rejection : Sys World := run call [Add "rejectWith" []] fresh.

(** [q.add(async () => {})] on a new queue. *)
Definition one_void : Sys World := run call [Add "resolveWith" []] fresh.

(** [q.add(resolveWith, 1); q.add(rejectWith, MockError)] on a new queue. *)
Definition success_then_failure : Sys World :=
  run call [Add "resolveWith" [VNum 1]; Add "rejectWith" [MockError]] fresh.

(** ['' + v] for the values above (a number is an integer, printed in
    decimal; the items of an array are joined with [","], [null] and
    [undefined] among them printed as nothing). *)
Fixpoint stringify (v : Val) : string :=
  match v with
  | VUndefined => "undefined"
  | VNull => "null"
  | VBool true => "true"
  | VBool false => "false"
  | VNum n => NilZero.string_of_int (Z.to_int n)
  | VStr s => s
  | VRec _ _ => "[object Object]"
  | VArr items =>
      Queue.join "," (map (fun x => if eq_null x then "" else stringify x) items)
  end.

(** [q.add(resolveWith, 1); q.add(throwNow, MockError);
    q.add(resolveWith, 3); q.add(resolveWith, 4)] on a new queue. *)
Definition thrower_second : Sys World :=
  run call [Add "resolveWith" [VNum 1]; Add "throwNow" [MockError];
            Add "resolveWith" [VNum 3]; Add "resolveWith" [VNum 4]] fresh.

(** [q.add(timeoutResult, 'slow', 1000)] on a new queue. *)
Definition one_timeout : Sys World :=
  run call [Add "timeoutResult" [VStr "slow"; VNum 1000]] fresh.

End Demo.

(* ------------------------------------------------------------------ *)
(** * Facts about the array primitives *)

Module JsFacts.
Import Js.

Section Splice.
Context {A : Type}.
Implicit Types (a r : list A) (x : A) (n : Z).

(** [a.splice(0, n)] removes the first [n] items. *)
Lemma splice_front a n :
  splice a 0 n = (firstn (Z.to_nat n) a, skipn (Z.to_nat n) a).
Proof.
  unfold splice, splice_count, splice_start. cbn [Z.ltb Z.compare].
  replace (Z.to_nat (Z.min 0 (Z.of_nat (length a)))) with 0%nat by lia.
  cbn [skipn firstn app Nat.add].
  set (c := Z.to_nat _).
  destruct (Nat.le_gt_cases (Z.to_nat n) (length a)) as [Hle | Hgt].
  - replace c with (Z.to_nat n) by (subst c; lia). reflexivity.
  - replace c with (length a) by (subst c; lia).
    rewrite !firstn_all2 by lia. rewrite !skipn_all2 by lia. reflexivity.
Qed.

(** [a.splice(Math.max(0, a.length - n), n)] removes the last [n] items. *)
Lemma splice_back a n :
  0 <= n ->
  splice a (Z.max 0 (Z.of_nat (length a) - n)) n
  = (skipn (length a - Z.to_nat n) a, firstn (length a - Z.to_nat n) a).
Proof.
  intros Hn. unfold splice, splice_count.
  assert (Hs : splice_start a (Z.max 0 (Z.of_nat (length a) - n))
               = (length a - Z.to_nat n)%nat).
  { unfold splice_start.
    destruct (Z.ltb_spec (Z.max 0 (Z.of_nat (length a) - n)) 0); lia. }
  rewrite Hs.
  set (s := (length a - Z.to_nat n)%nat).
  replace (Z.to_nat (Z.min (Z.max n 0) (Z.of_nat (length a) - Z.of_nat s)))
    with (length a - s)%nat by (subst s; lia).
  f_equal.
  - apply firstn_all2. rewrite length_skipn. lia.
  - rewrite (skipn_all2 a) by (subst s; lia). apply app_nil_r.
Qed.

(** [(x :: r).splice(0, 1)]. *)
Lemma splice_head x r : splice (x :: r) 0 1 = ([x], r).
Proof. rewrite splice_front. reflexivity. Qed.

(** [a.splice(a.length - 1, 1)] for [a = r ++ [x]]. *)
Lemma splice_last r x :
  splice (r ++ [x]) (Z.of_nat (length (r ++ [x])) - 1) 1 = ([x], r).
Proof.
  replace (Z.of_nat (length (r ++ [x])) - 1)
    with (Z.max 0 (Z.of_nat (length (r ++ [x])) - 1))
    by (rewrite length_app; cbn [length]; lia).
  rewrite splice_back by lia.
  replace (length (r ++ [x]) - Z.to_nat 1)%nat with (length r)
    by (rewrite length_app; cbn [length]; lia).
  rewrite skipn_app, firstn_app, Nat.sub_diag, skipn_all, firstn_all.
  cbn [skipn firstn app]. rewrite app_nil_r. reflexivity.
Qed.

(** A non-empty array ends with an item. *)
Lemma last_item a : a <> [] -> exists r x, a = r ++ [x].
Proof.
  intros Ha. destruct (exists_last Ha) as (r & x & ->). eauto.
Qed.

(** [a[a.length - 1]] for [a = r ++ [x]]. *)
Lemma at_index_last r x :
  at_index (r ++ [x]) (Z.of_nat (length (r ++ [x])) - 1) = Some x.
Proof.
  unfold at_index. rewrite length_app. cbn [length].
  destruct (Z.ltb_spec (Z.of_nat (length r + 1) - 1) 0); [lia |].
  replace (Z.to_nat (Z.of_nat (length r + 1) - 1)) with (length r) by lia.
  rewrite nth_error_app2, Nat.sub_diag by lia. reflexivity.
Qed.

End Splice.

End JsFacts.

(* ------------------------------------------------------------------ *)
(** * The synchronous queue *)

Module QueueFacts.
Import Js JsFacts Queue.

Lemma poll_of_empty (b : bool) : poll (mk [] b) = (VNull, mk [] b).
Proof. reflexivity. Qed.

Lemma poll_fifo (x : Val) (r : list Val) :
  poll (mk (x :: r) true) = (x, mk r true).
Proof.
  unfold poll, take_next, nextIndex. cbn [_array _fifo length].
  destruct (Z.ltb_spec 0 (Z.of_nat (S (length r)))); [| lia].
  rewrite splice_head. reflexivity.
Qed.

Lemma poll_filo (r : list Val) (x : Val) :
  poll (mk (r ++ [x]) false) = (x, mk r false).
Proof.
  unfold poll, take_next, nextIndex. cbn [_array _fifo].
  destruct (Z.ltb_spec 0 (Z.of_nat (length (r ++ [x])))) as [_ | H].
  - rewrite splice_last. reflexivity.
  - rewrite length_app in H. cbn [length] in H. lia.
Qed.

(** [n] polls of a FIFO queue: the first [n] items in order, [null] once
    the queue is empty; the other items stay, in order. *)
Lemma polls_fifo (n : nat) (a : list Val) :
  polls n (mk a true)
  = (firstn n a ++ repeat VNull (n - length a), mk (skipn n a) true).
Proof.
  revert a. induction n as [| n IH]; intros a; [reflexivity |].
  cbn [polls]. destruct a as [| x r].
  - rewrite poll_of_empty, IH. destruct n; reflexivity.
  - rewrite poll_fifo, IH. reflexivity.
Qed.

(** [n] polls of a FILO queue: the last [n] items, newest first, [null]
    once the queue is empty; the other items stay, in order. *)
Lemma polls_filo (n : nat) (a : list Val) :
  polls n (mk a false)
  = (firstn n (rev a) ++ repeat VNull (n - length a),
     mk (firstn (length a - n) a) false).
Proof.
  revert a. induction n as [| n IH]; intros a.
  - cbn [polls firstn app Nat.sub repeat]. rewrite Nat.sub_0_r, firstn_all.
    reflexivity.
  - cbn [polls]. destruct a as [| y a'] using rev_ind.
    + rewrite poll_of_empty, IH. destruct n; reflexivity.
    + clear IHa'. rewrite poll_filo, IH, rev_unit, length_app.
      cbn [length firstn app].
      replace (length a' + 1 - S n)%nat with (length a' - n)%nat by lia.
      replace (S n - (length a' + 1))%nat with (n - length a')%nat by lia.
      rewrite firstn_app.
      replace (length a' - n - length a')%nat with 0%nat by lia.
      cbn [firstn]. rewrite app_nil_r. reflexivity.
Qed.

Lemma add_cases (limit : Z) (item : Val) (q : t) :
  add limit item q
  = match isArray item with
    | Some xs =>
        if Z.of_nat (length xs) <=? limit
        then (Return tt, mk (_array q ++ xs) (_fifo q))
        else (Throw RangeError, q)
    | None => (Return tt, mk (_array q ++ [item]) (_fifo q))
    end.
Proof.
  unfold add, push_apply. destruct (isArray item) as [xs |]; [| reflexivity].
  destruct (Z.of_nat (length xs) <=? limit); reflexivity.
Qed.

Lemma adds_array (limit : Z) (items : list Val) (q : t) :
  adds limit items q = mk (_array q ++ inserted limit items) (_fifo q).
Proof.
  revert q. induction items as [| item items IH]; intros q.
  - cbn. rewrite app_nil_r. destruct q; reflexivity.
  - cbn [adds fold_left inserted flat_map].
    fold (adds limit items (snd (add limit item q))).
    rewrite IH, add_cases.
    destruct (isArray item) as [xs |];
      [destruct (Z.of_nat (length xs) <=? limit) |];
      cbn [snd _array _fifo app]; rewrite <- ?app_assoc; reflexivity.
Qed.

(** X3: [element] and [remove] throw [QueueEmptyError] exactly on the empty
    queue; [peek] and [poll] give [null] there. *)
Lemma empty_error_iff (q : t) :
  (element q = Throw QueueEmptyError <-> size q = 0) /\
  (fst (remove q) = Throw QueueEmptyError <-> size q = 0) /\
  (size q = 0 -> peek q = VNull /\ poll q = (VNull, q)).
Proof.
  unfold element, remove, peek, poll, size.
  destruct (Z.eqb_spec (Z.of_nat (length (_array q))) 0) as [H0 | Hn].
  - rewrite H0. cbn. repeat split; auto.
  - destruct (take_next q) as [v q'] eqn:Et. cbn [fst].
    repeat split; try discriminate; try contradiction.
Qed.

(** The test 'test FILO queue'. *)
Example test_filo_queue :
  let q0 := snd (add Demo.apply_limit
                    (VArr [VNum 1; VNum 2; VNum 3; VNum 4; VNum 5])
                    (create None)) in
  let q1 := useFILO q0 in
  let q2 := snd (remove q1) in
  let q3 := useFIFO (snd (remove q2)) in
  let q4 := snd (remove q3) in
  let q5 := snd (remove q4) in
  [peek (create None); peek q0; peek q1] = [VNull; VNum 1; VNum 5] /\
  [fst (remove q1); fst (remove q2); element q3; fst (remove q3);
   fst (remove q4)]
  = [Return (VNum 5); Return (VNum 4); Return (VNum 1); Return (VNum 1);
     Return (VNum 2)] /\
  toArray q5 = [VNum 3].
Proof. repeat split. Qed.

(** C8: a sequence of [add] calls appends the inserted items, in insertion
    order, and touches neither the items already stored nor the mode (an
    array that [push.apply] refuses inserts nothing); polling the queue so
    built to the end gives the items in insertion order under FIFO and in
    the reverse order under FILO; [n] polls take the first [n] items
    (FIFO) or the last [n], newest first (FILO), and leave the other items
    as they were stored; [useFIFO] and [useFILO] set the mode and leave
    the array untouched, so that after [n] FIFO polls and a switch to
    FILO, [m] polls give the last [m] of the items left, newest first, and
    after [n] FILO polls and a switch to FIFO, [m] polls give the first
    [m] of the items left, oldest first. *)
Theorem C8_poll_order (limit : Z) (items a : list Val) (n m : nat) (q0 : t) :
  let q := adds limit items (create None) in
  adds limit items q0 = mk (_array q0 ++ inserted limit items) (_fifo q0) /\
  _array q = inserted limit items /\
  fst (polls (length (inserted limit items)) q) = inserted limit items /\
  fst (polls (length (inserted limit items)) (useFILO q))
  = rev (inserted limit items) /\
  polls n (mk a true)
  = (firstn n a ++ repeat VNull (n - length a), mk (skipn n a) true) /\
  polls n (mk a false)
  = (firstn n (rev a) ++ repeat VNull (n - length a),
     mk (firstn (length a - n) a) false) /\
  (forall q' : t,
     _array (useFIFO q') = _array q' /\ _array (useFILO q') = _array q') /\
  (forall q' : t,
     useFIFO q' = mk (_array q') true /\ useFILO q' = mk (_array q') false) /\
  fst (polls m (useFILO (snd (polls n (mk a true)))))
  = firstn m (rev (skipn n a)) ++ repeat VNull (m - length (skipn n a)) /\
  fst (polls m (useFIFO (snd (polls n (mk a false)))))
  = firstn m (firstn (length a - n) a)
    ++ repeat VNull (m - length (firstn (length a - n) a)).
Proof.
  cbv zeta. split; [apply adds_array |].
  rewrite adds_array. cbn [create _array _fifo app].
  unfold useFILO, useFIFO. cbn [_array _fifo].
  rewrite !polls_fifo, !polls_filo. cbn [fst snd _array].
  rewrite ?polls_fifo, ?polls_filo. cbn [fst snd _array].
  rewrite Nat.sub_diag, !firstn_all2 by (rewrite ?length_rev; lia).
  cbn [repeat]. rewrite !app_nil_r.
  repeat split; reflexivity.
Qed.

(** C10 (as amended): [add] of an array spreads it by one level.  For an
    array of at most [limit] items, the number of arguments the engine
    passes to [push.apply], it appends the items one by one, in order, so
    [size] grows by the length of the array (by 0 for the empty array);
    for a longer array it throws a [RangeError] and appends nothing.  An
    array [x] is enqueued as one item by wrapping it, [add([x])]. *)
Theorem C10_add_flattens (limit : Z) (xs : list Val) (x : Val) (q : t) :
  (Z.of_nat (length xs) <= limit ->
   add limit (VArr xs) q = (Return tt, mk (_array q ++ xs) (_fifo q)) /\
   size (snd (add limit (VArr xs) q)) = size q + Z.of_nat (length xs)) /\
  (limit < Z.of_nat (length xs) ->
   add limit (VArr xs) q = (Throw RangeError, q)) /\
  (0 <= limit -> size (snd (add limit (VArr []) q)) = size q) /\
  (1 <= limit ->
   add limit (VArr [x]) q = (Return tt, mk (_array q ++ [x]) (_fifo q))).
Proof.
  rewrite !add_cases. cbn [isArray length]. unfold size.
  repeat split.
  - destruct (Z.leb_spec (Z.of_nat (length xs)) limit); [reflexivity | lia].
  - destruct (Z.leb_spec (Z.of_nat (length xs)) limit); [| lia].
    cbn [snd _array]. rewrite length_app. lia.
  - intros H. destruct (Z.leb_spec (Z.of_nat (length xs)) limit);
      [lia | reflexivity].
  - intros H. destruct (Z.leb_spec (Z.of_nat 0) limit); [| lia].
    cbn [snd _array]. rewrite app_nil_r. reflexivity.
  - intros H. destruct (Z.leb_spec (Z.of_nat 1) limit); [reflexivity | lia].
Qed.

(** C10 at the engine of [Demo]: an array of three items, an array of
    100001 items being beyond what this file writes out. *)
Lemma C10_add_flattens_witness :
  Z.of_nat (length [VNum 1; VNum 2; VNum 3]) <= Demo.apply_limit /\
  add Demo.apply_limit (VArr [VNum 1; VNum 2; VNum 3]) (mk [VNum 0] true)
  = (Return tt, mk [VNum 0; VNum 1; VNum 2; VNum 3] true).
Proof.
  assert (H : Z.of_nat (length [VNum 1; VNum 2; VNum 3]) <= Demo.apply_limit)
    by (cbn; unfold Demo.apply_limit; lia).
  split; [exact H |].
  exact (proj1 (proj1 (C10_add_flattens Demo.apply_limit
                         [VNum 1; VNum 2; VNum 3] VNull (mk [VNum 0] true)) H)).
Defined.

(** C10, the claim as stated fails: [add([[1, 2]])] enqueues the array
    [[1, 2]] as one item. *)
Lemma C10_array_enqueued_as_one_item :
  let x := VArr [VNum 1; VNum 2] in
  let q := snd (add Demo.apply_limit (VArr [x]) (create None)) in
  isArray x = Some [VNum 1; VNum 2] /\ _array q = [x] /\ size q = 1.
Proof. repeat split. Qed.

(** What one [poll] does, by cases on the queue. *)
Lemma poll_cases (q : t) :
  (_array q = [] /\ poll q = (VNull, q)) \/
  (exists x r,
     access_order q = x :: r /\
     _array q = (if _fifo q then x :: r else rev r ++ [x]) /\
     poll q = (x, mk (if _fifo q then r else rev r) (_fifo q))).
Proof.
  destruct q as [a [|]]; unfold access_order; cbn [_array _fifo].
  - destruct a as [| x r]; [left; split; reflexivity |].
    right. exists x, r. rewrite poll_fifo. repeat split.
  - destruct a as [| y a' _] using rev_ind; [left; split; reflexivity |].
    right. exists y, (rev a'). rewrite rev_unit, rev_involutive, poll_filo.
    repeat split.
Qed.

(** X1: [size] counts the stored items: [add] adds one for an item, the
    length for an array that [push.apply] accepts and nothing for an array
    it refuses; [poll] and [remove] take one off unless the queue is
    empty, [clear] gives 0; so [add] of an item followed by [poll] gives
    the size back. *)
Theorem size_after_operations (limit : Z) (item : Val) (q : t) :
  size (snd (add limit item q))
  = size q + match isArray item with
             | Some xs =>
                 if Z.of_nat (length xs) <=? limit then Z.of_nat (length xs)
                 else 0
             | None => 1
             end /\
  size (snd (poll q)) = Z.max 0 (size q - 1) /\
  size (snd (remove q)) = Z.max 0 (size q - 1) /\
  size (clear q) = 0 /\
  match isArray item with
  | None => size (snd (poll (snd (add limit item q)))) = size q
  | Some _ => True
  end.
Proof.
  assert (Hpoll : forall q', size (snd (poll q')) = Z.max 0 (size q' - 1)).
  { intros q'. unfold size.
    destruct (poll_cases q') as [[Ha ->] | (x & r & _ & Ha & ->)];
      cbn [snd _array]; rewrite Ha; [reflexivity |].
    destruct (_fifo q'); rewrite ?length_app, ?length_rev; cbn [length]; lia. }
  assert (Hadd : size (snd (add limit item q))
                 = size q + match isArray item with
                            | Some xs =>
                                if Z.of_nat (length xs) <=? limit
                                then Z.of_nat (length xs) else 0
                            | None => 1
                            end).
  { rewrite add_cases. unfold size.
    destruct (isArray item) as [xs |];
      [destruct (Z.of_nat (length xs) <=? limit) |];
      cbn [snd _array]; rewrite ?length_app; cbn [length]; lia. }
  split; [exact Hadd |]. split; [apply Hpoll |]. split; [| split].
  - unfold remove. specialize (Hpoll q). unfold poll, size in *.
    destruct (Z.eqb_spec (Z.of_nat (length (_array q))) 0) as [H0 | Hn].
    + cbn [snd]. lia.
    + destruct (Z.ltb_spec 0 (Z.of_nat (length (_array q)))); [| lia].
      destruct (take_next q) as [v q']. exact Hpoll.
  - reflexivity.
  - destruct (isArray item) eqn:Hi; [exact I |].
    rewrite Hpoll, Hadd. unfold size. lia.
Qed.

(** X2: [peek] gives what the next [poll] gives, and [element] what the next
    [remove] gives; on a queue that is not empty [remove] is [poll]. *)
Theorem peek_previews_poll (q : t) :
  peek q = fst (poll q) /\
  element q = fst (remove q) /\
  remove q = if size q =? 0 then (Throw QueueEmptyError, q)
             else (Return (fst (poll q)), snd (poll q)).
Proof.
  assert (Hidx : 0 < Z.of_nat (length (_array q)) ->
                 index (_array q) (nextIndex q) = fst (take_next q)).
  { intros Hlen. destruct (poll_cases q) as [[Ha _] | (x & r & _ & Ha & Hp)].
    - rewrite Ha in Hlen. cbn in Hlen. lia.
    - unfold poll in Hp. destruct (Z.ltb_spec 0 (Z.of_nat (length (_array q))));
        [| lia].
      rewrite Hp. cbn [fst]. unfold index, nextIndex.
      destruct (_fifo q); rewrite Ha; [reflexivity |].
      replace (length (rev r ++ [x])) with (length (rev r ++ [x]))%nat by reflexivity.
      rewrite at_index_last. reflexivity. }
  unfold peek, element, remove, poll, size.
  destruct (Z.eqb_spec (Z.of_nat (length (_array q))) 0) as [H0 | Hn].
  - rewrite H0. cbn. repeat split.
  - destruct (Z.ltb_spec 0 (Z.of_nat (length (_array q)))); [| lia].
    rewrite (Hidx ltac:(assumption)).
    destruct (take_next q) as [v q']. repeat split.
Qed.

(** X4: Under FILO the queue is a stack: [poll] after [add] of an item gives
    that item back and leaves the queue as it was before the [add]. *)
Theorem filo_add_poll (limit : Z) (a : list Val) (x : Val) :
  isArray x = None ->
  fst (add limit x (mk a false)) = Return tt /\
  poll (snd (add limit x (mk a false))) = (x, mk a false).
Proof.
  intros Hx. rewrite add_cases, Hx. cbn [fst snd _array _fifo].
  split; [reflexivity | apply poll_filo].
Qed.

Lemma filo_add_poll_witness :
  isArray (VNum 7) = None /\
  poll (snd (add Demo.apply_limit (VNum 7) (mk [VNum 1; VNum 2] false)))
  = (VNum 7, mk [VNum 1; VNum 2] false).
Proof.
  split; [reflexivity |].
  exact (proj2 (filo_add_poll Demo.apply_limit [VNum 1; VNum 2] (VNum 7)
                  eq_refl)).
Defined.

Lemma iter_next_cases (q : t) :
  (_array q = [] /\ iter_next q = ({| value := VNull; done := true |}, q)) \/
  (exists x r,
     access_order q = x :: r /\
     iter_next q = ({| value := x; done := false |},
                    mk (if _fifo q then r else rev r) (_fifo q))).
Proof.
  unfold iter_next, size.
  destruct (poll_cases q) as [[Ha ->] | (x & r & Ho & Ha & ->)].
  - left. rewrite Ha. split; reflexivity.
  - right. exists x, r. split; [exact Ho |].
    replace (Z.of_nat (length (_array q)) =? 0) with false; [reflexivity |].
    symmetry. apply Z.eqb_neq. rewrite Ha.
    destruct (_fifo q); rewrite ?length_app; cbn [length]; lia.
Qed.

(** X5: A [for ... of] loop over the queue, given turns enough, receives every
    item, in the order of [poll], and leaves the queue empty. *)
Theorem for_of_drains (fuel : nat) (seen : list Val) (q : t) :
  (length (_array q) < fuel)%nat ->
  for_of fuel seen q = Some (seen ++ access_order q, mk [] (_fifo q)).
Proof.
  revert seen q. induction fuel as [| fuel IH]; intros seen q Hf; [lia |].
  cbn [for_of].
  destruct (iter_next_cases q) as [[Ha ->] | (x & r & Ho & ->)]; cbn [done value].
  - unfold access_order. rewrite Ha. destruct q as [a b]. cbn in *. subst a.
    destruct b; rewrite app_nil_r; reflexivity.
  - assert (Hl : length (_array q) = S (length r)).
    { unfold access_order in Ho. destruct (_fifo q).
      - rewrite Ho. reflexivity.
      - rewrite <- (length_rev (_array q)), Ho. reflexivity. }
    rewrite IH.
    + rewrite Ho, <- app_assoc. unfold access_order. cbn [_array _fifo app].
      destruct (_fifo q); rewrite ?rev_involutive; reflexivity.
    + cbn [_array _fifo].
      destruct (_fifo q); rewrite ?length_rev; lia.
Qed.

Lemma for_of_drains_witness :
  (length (_array (mk [VNum 1; VNum 2; VNum 3] false)) < 4)%nat /\
  for_of 4 [] (mk [VNum 1; VNum 2; VNum 3] false)
  = Some ([VNum 3; VNum 2; VNum 1], mk [] false).
Proof.
  assert (H : (length (_array (mk [VNum 1; VNum 2; VNum 3] false)) < 4)%nat)
    by (cbn; lia).
  split; [exact H |].
  exact (for_of_drains 4 [] (mk [VNum 1; VNum 2; VNum 3] false) H).
Defined.

(** X6: A [for ... of] loop left with [break] in its k-th turn has received
    the first [k] items in the order of [poll] and leaves the other items
    stored as they were: [return()] only peeks. *)
Theorem for_of_break_leaves_rest (k : nat) (seen a : list Val) :
  for_of_break k seen (mk a true)
  = (seen ++ firstn k a, mk (skipn k a) true) /\
  for_of_break k seen (mk a false)
  = (seen ++ firstn k (rev a), mk (firstn (length a - k) a) false).
Proof.
  split.
  - revert seen a. induction k as [| k IH]; intros seen a.
    + cbn. rewrite app_nil_r. reflexivity.
    + cbn [for_of_break]. unfold iter_next, size. cbn [_array].
      destruct a as [| x r].
      * rewrite poll_of_empty. cbn. rewrite app_nil_r. reflexivity.
      * rewrite poll_fifo. cbn [length done value Z.eqb Z.of_nat firstn skipn].
        destruct k as [| k'].
        -- cbn. reflexivity.
        -- cbn [Nat.eqb]. rewrite IH, <- app_assoc. reflexivity.
  - revert seen a. induction k as [| k IH]; intros seen a.
    + cbn. rewrite app_nil_r, Nat.sub_0_r, firstn_all. reflexivity.
    + cbn [for_of_break]. unfold iter_next, size. cbn [_array].
      destruct a as [| y a' _] using rev_ind.
      * rewrite poll_of_empty. cbn. rewrite app_nil_r. reflexivity.
      * rewrite poll_filo, rev_unit, length_app.
        replace (Z.of_nat (length a' + length [y]) =? 0) with false
          by (symmetry; apply Z.eqb_neq; cbn [length]; lia).
        cbn [length done value firstn].
        replace (length a' + 1 - S k)%nat with (length a' - k)%nat by lia.
        assert (Hf : firstn (length a' - k) (a' ++ [y])
                     = firstn (length a' - k) a').
        { rewrite firstn_app.
          replace (length a' - k - length a')%nat with 0%nat by lia.
          cbn [firstn]. apply app_nil_r. }
        rewrite Hf.
        destruct k as [| k'].
        -- cbn. rewrite Nat.sub_0_r, firstn_all. reflexivity.
        -- cbn [Nat.eqb]. rewrite IH, <- app_assoc. reflexivity.
Qed.

Lemma append_assoc (x y z : string) :
  ((x ++ y) ++ z)%string = (x ++ y ++ z)%string.
Proof.
  induction x as [| c x IH]; [reflexivity |]. cbn. rewrite IH. reflexivity.
Qed.

Lemma join_snoc (sep : string) (l : list string) (x : string) :
  l <> [] -> join sep (l ++ [x]) = (join sep l ++ sep ++ x)%string.
Proof.
  induction l as [| y l IH]; [contradiction |]. intros _.
  destruct l as [| z l].
  - reflexivity.
  - change (join sep ((y :: z :: l) ++ [x]))
      with (y ++ sep ++ join sep ((z :: l) ++ [x]))%string.
    rewrite IH by discriminate.
    change (join sep (y :: z :: l)) with (y ++ sep ++ join sep (z :: l))%string.
    rewrite !append_assoc. reflexivity.
Qed.

(** X7: [toString] after [add] of an item: the rendering of the item alone
    when the queue was empty, and otherwise the rendering of the queue as
    it was, the separator of the mode, and the rendering of the item. *)
Theorem toString_add (limit : Z) (stringify : Val -> string)
    (element : option (Val -> string)) (item : Val) (q : t) :
  isArray item = None ->
  let f := match element with Some f => f | None => stringify end in
  let sep := (if _fifo q then " <- " else " -> ")%string in
  toString stringify element (snd (add limit item q))
  = if size q =? 0 then f item
    else (toString stringify element q ++ sep ++ f item)%string.
Proof.
  intros Hi. cbv zeta. rewrite add_cases, Hi. unfold toString, size.
  cbn [snd].
  cbn [_array _fifo]. rewrite map_app. cbn [map].
  destruct (_array q) as [| y a] eqn:Ha; [reflexivity |].
  cbn [length]. replace (Z.of_nat (S (length a)) =? 0) with false
    by (symmetry; apply Z.eqb_neq; lia).
  apply join_snoc. discriminate.
Qed.

(** The renderings the tests expect. *)
Example test_toString :
  toString Demo.stringify None
    (adds Demo.apply_limit [VStr "Tom"; VStr "Dick"; VStr "Harry"]
       (create None))
  = "Tom <- Dick <- Harry"%string /\
  toString Demo.stringify None (mk [VNum 3] true) = "3"%string /\
  toString Demo.stringify None (mk [VNum 1; VNum 2] false) = "1 -> 2"%string.
Proof. repeat split. Qed.

Lemma toString_add_witness :
  isArray (VStr "Harry") = None /\
  toString Demo.stringify None
    (snd (add Demo.apply_limit (VStr "Harry") (mk [VStr "Tom"] true)))
  = "Tom <- Harry"%string.
Proof.
  split; [reflexivity |].
  exact (toString_add Demo.apply_limit Demo.stringify None (VStr "Harry")
           (mk [VStr "Tom"] true) eq_refl).
Defined.

End QueueFacts.

(* ------------------------------------------------------------------ *)
(** * The queue of deferred calls *)

Module PromiseQueueFacts.
Import Js JsFacts PromiseQueue.

Section Machine.

Variable World : Type.
Variable call : Func -> list Val -> World -> CallResult * World.

Implicit Types (s : Sys World) (q : t) (h it : PromiseQueueItem)
  (rest next : list PromiseQueueItem).

(** The first entry in access order is the one at the head index, and
    [splice(nextIndex(), 1)] takes exactly it. *)
Lemma take_head q h rest :
  access_order q = h :: rest ->
  head q = Some h /\
  splice (_array q) (nextIndex q) 1 = ([h], stored q rest) /\
  (Z.of_nat (length (_array q)) =? 0) = false /\
  (0 <? Z.of_nat (length (_array q))) = true.
Proof.
  unfold access_order, head, nextIndex, stored.
  destruct (_fifo q); intros Ha.
  - rewrite Ha. cbn [length]. rewrite splice_head.
    repeat split; try reflexivity;
      first [apply Z.eqb_neq | apply Z.ltb_lt]; lia.
  - assert (Hr : _array q = rev rest ++ [h]).
    { rewrite <- (rev_involutive (_array q)), Ha. reflexivity. }
    rewrite Hr, at_index_last, splice_last, length_app. cbn [length].
    repeat split; try reflexivity;
      first [apply Z.eqb_neq | apply Z.ltb_lt]; lia.
Qed.

Lemma access_order_stored q l :
  access_order (set_array (stored q l) q) = l.
Proof.
  unfold access_order, stored. cbn [_fifo _array set_array].
  destruct (_fifo q); [reflexivity | apply rev_involutive].
Qed.

Lemma empty_access_order q : _array q = [] <-> access_order q = [].
Proof.
  unfold access_order. destruct (_fifo q); [tauto |].
  split; intros H.
  - rewrite H. reflexivity.
  - rewrite <- (rev_involutive (_array q)), H. reflexivity.
Qed.

(** [peek] with the cache present: the cached outcome is delivered, the
    state is left as it is and nothing is called. *)
Lemma peek_cached s :
  _cached (queue s) = true ->
  exists c, deliver (cache (queue s)) = Some c /\ peek call s = (c, s).
Proof.
  intros Hc. unfold peek, peek_start, cache. rewrite Hc.
  destruct (neq_null (_error (queue s))); eexists; split; reflexivity.
Qed.

(** [peek] with the cache absent on a queue with head [h]: [h] is called,
    once, and its outcome is stored and delivered. *)
Lemma peek_uncached s h rest :
  _cached (queue s) = false ->
  access_order (queue s) = h :: rest ->
  let r := call (func h) (args h) (world s) in
  peek call s
  = (outcome (fst r),
     sys (cache_outcome (outcome (fst r)) (queue s)) (snd r) (calls s ++ [h])).
Proof.
  intros Hc Ha. destruct (take_head _ _ _ Ha) as (Hh & _ & _ & Hlen).
  unfold peek, peek_start, invoke. rewrite Hc, Hlen.
  unfold head in Hh. rewrite Hh.
  cbv zeta. destruct (call (func h) (args h) (world s)) as [[[v d | e d] | e] w];
    reflexivity.
Qed.

(** [peek] with the cache absent on the empty queue. *)
Lemma peek_empty s :
  _cached (queue s) = false -> _array (queue s) = [] ->
  peek call s = (Return VNull, s).
Proof.
  intros Hc Ha. unfold peek, peek_start. rewrite Hc, Ha. reflexivity.
Qed.

Lemma poll_empty s :
  _array (queue s) = [] -> poll call s = (Return VNull, s).
Proof. intros Ha. unfold poll. rewrite Ha. reflexivity. Qed.

(** [poll] with the cache present: the head is removed, the cache is
    dropped, the cached outcome is delivered and nothing is called. *)
Lemma poll_cached s h rest :
  _cached (queue s) = true ->
  access_order (queue s) = h :: rest ->
  exists c, deliver (cache (queue s)) = Some c /\
    poll call s
    = (c, with_queue (fun q => set_cached false (set_array (stored q rest) q)) s).
Proof.
  intros Hc Ha. destruct (take_head _ _ _ Ha) as (_ & Hs & Hlen & _).
  unfold poll, cache. rewrite Hlen, Hs, Hc. cbn [at_index Z.ltb Z.compare Z.to_nat nth_error].
  destruct (neq_null (_error (queue s))); eexists; split; reflexivity.
Qed.

(** [poll] with the cache absent: the head is removed and called, and its
    outcome is delivered; nothing is stored. *)
Lemma poll_uncached s h rest :
  _cached (queue s) = false ->
  access_order (queue s) = h :: rest ->
  let r := call (func h) (args h) (world s) in
  poll call s
  = (outcome (fst r),
     sys (set_array (stored (queue s) rest) (queue s)) (snd r) (calls s ++ [h])).
Proof.
  intros Hc Ha. destruct (take_head _ _ _ Ha) as (_ & Hs & Hlen & _).
  unfold poll, invoke. rewrite Hlen, Hs, Hc.
  cbn [at_index Z.ltb Z.compare Z.to_nat nth_error with_queue world queue calls].
  cbv zeta. destruct (call (func h) (args h) (world s)) as [[p | e] w];
    reflexivity.
Qed.

(** [poll] by the state of the cache fields, on a queue whose first entry
    in access order is [h]: [h] is removed and the slot is left absent;
    with the slot present, what it holds is delivered and nothing is
    called; with the slot absent, [h] is called once and what the call
    gives is delivered. *)
Lemma poll_by_state s h rest :
  access_order (queue s) = h :: rest ->
  let s' := snd (poll call s) in
  head (queue s) = Some h /\
  _array (queue s') = stored (queue s) rest /\
  access_order (queue s') = rest /\
  _fifo (queue s') = _fifo (queue s) /\
  cache (queue s') = Absent /\
  match cache (queue s) with
  | Absent =>
      let r := call (func h) (args h) (world s) in
      fst (poll call s) = outcome (fst r) /\
      world s' = snd r /\ calls s' = calls s ++ [h]
  | present =>
      Some (fst (poll call s)) = deliver present /\
      world s' = world s /\ calls s' = calls s
  end.
Proof.
  intros Ha. cbv zeta.
  split; [apply (take_head _ _ _ Ha) |].
  destruct (_cached (queue s)) eqn:Hc.
  - destruct (poll_cached _ _ _ Hc Ha) as (c & Hd & ->).
    cbn [fst snd with_queue queue world calls _array set_cached set_array _fifo].
    split; [reflexivity |].
    split; [apply access_order_stored |].
    split; [reflexivity |].
    split; [reflexivity |].
    unfold cache in *. rewrite Hc in *.
    destruct (neq_null (_error (queue s))); cbn [deliver] in *;
      rewrite Hd; repeat split.
  - rewrite (poll_uncached _ _ _ Hc Ha).
    cbn [fst snd queue world calls _array set_array _fifo].
    split; [reflexivity |].
    split; [apply access_order_stored |].
    split; [reflexivity |].
    unfold cache. cbn [_cached set_array]. rewrite Hc.
    repeat split.
Qed.

Lemma element_state s : snd (element call s) = snd (peek call s).
Proof.
  unfold element, bind. destruct (peek call s) as [[v | e] s1];
    [destruct (eq_null v) |]; reflexivity.
Qed.

Lemma remove_state s : snd (remove call s) = snd (poll call s).
Proof.
  unfold remove, bind. destruct (poll call s) as [[v | e] s1];
    [destruct (eq_null v) |]; reflexivity.
Qed.

Lemma peek_cache_of_head s :
  cache_of_head s -> cache_of_head (snd (peek call s)).
Proof.
  intros [Hf Hinv]. destruct (_cached (queue s)) eqn:Hc.
  - destruct (peek_cached s Hc) as (c & _ & ->). cbn [snd].
    split; [exact Hf | intros _; apply Hinv; reflexivity].
  - destruct (_array (queue s)) as [| h rest] eqn:Ha.
    + rewrite (peek_empty s Hc Ha). cbn [snd].
      split; [exact Hf | rewrite Hc; discriminate].
    + assert (Hacc : access_order (queue s) = h :: rest)
        by (unfold access_order; rewrite Hf; exact Ha).
      rewrite (peek_uncached s h rest Hc Hacc). cbn [snd].
      split.
      * cbn [queue]. destruct (outcome _); exact Hf.
      * intros _. exists h, rest, (calls s). cbn [queue calls].
        split; [destruct (outcome _); exact Ha | reflexivity].
Qed.

Lemma poll_cache_of_head s :
  cache_of_head s -> cache_of_head (snd (poll call s)).
Proof.
  intros [Hf Hinv]. destruct (_array (queue s)) as [| h rest] eqn:Ha.
  - rewrite (poll_empty s Ha). cbn [snd]. split; [exact Hf |].
    intros Hc. destruct (Hinv Hc) as (? & ? & ? & Hcontra & _). discriminate.
  - assert (Hacc : access_order (queue s) = h :: rest)
      by (unfold access_order; rewrite Hf; exact Ha).
    destruct (_cached (queue s)) eqn:Hc.
    + destruct (poll_cached s h rest Hc Hacc) as (c & _ & ->).
      split; [exact Hf | discriminate].
    + rewrite (poll_uncached s h rest Hc Hacc).
      split; [exact Hf |]. cbn [snd queue _cached set_array].
      rewrite Hc. discriminate.
Qed.

(** [add], [clear], [peek], [element], [poll] and [remove] keep the cache
    with the head of a FIFO queue. *)
Lemma step_cache_of_head s (o : Op) :
  keeps_cache o = true -> cache_of_head s -> cache_of_head (step call o s).
Proof.
  destruct o; try discriminate; intros _ Hinv; cbn [step].
  - destruct Hinv as [Hf Hinv]. split; [exact Hf |].
    cbn [with_queue queue calls add set_array _cached _array].
    intros Hc. destruct (Hinv Hc) as (h & r & pre & Ea & Ec).
    rewrite Ea, Ec. eexists h, _, pre. split; reflexivity.
  - destruct Hinv as [Hf _]. split; [exact Hf | discriminate].
  - rewrite element_state. apply peek_cache_of_head, Hinv.
  - apply peek_cache_of_head, Hinv.
  - rewrite remove_state. apply poll_cache_of_head, Hinv.
  - apply poll_cache_of_head, Hinv.
Qed.

(** X20: Sequences of [add], [clear], [peek], [element], [poll] and [remove]
    on a new queue: the cache, when present, is that of the head. *)
Lemma run_cache_of_head (ops : list Op) (w : World) :
  forallb keeps_cache ops = true ->
  cache_of_head (run call ops (init w)).
Proof.
  assert (H : forall s, cache_of_head s -> forallb keeps_cache ops = true ->
                        cache_of_head (run call ops s)).
  { induction ops as [| o ops IH]; intros s Hinv Hk; [exact Hinv |].
    cbn [forallb] in Hk. apply andb_true_iff in Hk as [Ho Hk].
    cbn [run fold_left]. apply IH; [| exact Hk].
    apply step_cache_of_head; assumption. }
  apply H. split; [reflexivity | discriminate].
Qed.

(** [map] calls the functions and leaves the queue object alone. *)
Lemma map_invoke_queue next s :
  queue (snd (map_invoke call next s)) = queue s.
Proof.
  revert s. induction next as [| it next IH]; intros s; [reflexivity |].
  cbn [map_invoke]. unfold invoke.
  destruct (call (func it) (args it) (world s)) as [[p | e] w];
    [| reflexivity].
  match goal with |- context [map_invoke call next ?s1] =>
    specialize (IH s1); destruct (map_invoke call next s1) as [[ps | e] s2]
  end; exact IH.
Qed.

(** When every call fulfils, [map] makes them all, in order. *)
Lemma map_invoke_all_fulfil next s vs w :
  all_fulfil call next (world s) vs w ->
  exists ps,
    map_invoke call next s = (Return ps, sys (queue s) w (calls s ++ next)) /\
    Promise_all ps = Return (VArr vs) /\ length vs = length next.
Proof.
  revert s vs. induction next as [| it next IH]; intros s vs Hall;
    inversion Hall; subst.
  - exists []. rewrite app_nil_r. destruct s; repeat split.
  - cbn [map_invoke]. unfold invoke.
    match goal with H : call _ _ _ = _ |- _ => rewrite H end.
    match goal with |- context [map_invoke call next ?s1] =>
      destruct (IH s1 vs0) as (ps & -> & Hp & Hl); [assumption |]
    end.
    exists (Fulfilled v d :: ps).
    cbn [queue calls]. rewrite <- app_assoc. cbn [app length].
    repeat split; [| congruence].
    unfold Promise_all in *. cbn [first_rejection fulfilments].
    destruct (first_rejection ps) as [[e d'] |]; congruence.
Qed.

(** When [map] ends and no promise rejects, every call has fulfilled. *)
Lemma map_invoke_fulfilled next s ps s' :
  map_invoke call next s = (Return ps, s') ->
  first_rejection ps = None ->
  all_fulfil call next (world s) (fulfilments ps) (world s').
Proof.
  revert s ps s'. induction next as [| it next IH]; intros s ps s'.
  - cbn [map_invoke]. intros [= <- <-] _. constructor.
  - cbn [map_invoke]. unfold invoke.
    destruct (call (func it) (args it) (world s)) as [[p | e] w] eqn:Ec;
      [| discriminate].
    match goal with |- context [map_invoke call next ?s1] =>
      specialize (IH s1); destruct (map_invoke call next s1) as [[ps1 | e] s2]
    end; [| discriminate].
    intros [= <- <-] Hrej. destruct p as [v d | e d].
    + cbn [first_rejection fulfilments] in *.
      econstructor; [exact Ec |]. apply (IH ps1 s2 eq_refl Hrej).
    + cbn [first_rejection] in Hrej.
      destruct (first_rejection ps1) as [[e' d'] |]; [| discriminate].
      destruct (d' <? d)%nat; discriminate.
Qed.

(** [batch] on a non-empty queue with [n >= 1]: what is spliced out. *)
Lemma batch_splice q (n : Z) :
  1 <= n ->
  splice (_array q) (nextBatchIndex q n) n
  = (if _fifo q then firstn (Z.to_nat n) (_array q)
     else skipn (length (_array q) - Z.to_nat n) (_array q),
     if _fifo q then skipn (Z.to_nat n) (_array q)
     else firstn (length (_array q) - Z.to_nat n) (_array q)).
Proof.
  intros Hn. unfold nextBatchIndex. destruct (_fifo q).
  - apply splice_front.
  - apply splice_back. lia.
Qed.

(** C5 (as amended): [batch(n)] on an empty queue or with [n < 1] returns
    the empty array and changes nothing.  Otherwise it removes the first
    [n] entries (FIFO) or the last [n] entries (FILO), all of them when
    there are at most [n], keeps their stored order and leaves the other
    entries in place; when each of the removed functions, called in that
    order, fulfils, it returns the array of their values in that order,
    one per removed entry; when one of them does not, [batch] throws and
    returns no array. *)
Theorem C5_batch s (n : Z) :
  let q := queue s in
  let a := _array q in
  let k := Z.to_nat n in
  let next := if _fifo q then firstn k a else skipn (length a - k) a in
  let rest := if _fifo q then skipn k a else firstn (length a - k) a in
  (a = [] \/ n < 1 -> batch call n s = (Return (VArr []), s)) /\
  (a <> [] -> 1 <= n ->
   queue (snd (batch call n s)) = set_array rest q /\
   length next = Nat.min k (length a) /\
   (length a <= k -> rest = [])%nat /\
   (forall vs w,
      all_fulfil call next (world s) vs w ->
      batch call n s
      = (Return (VArr vs), sys (set_array rest q) w (calls s ++ next)) /\
      length vs = length next) /\
   ((forall vs w, ~ all_fulfil call next (world s) vs w) ->
    exists e, fst (batch call n s) = Throw e)).
Proof.
  cbv zeta. split.
  - intros [Ha | Hn]; unfold batch.
    + rewrite Ha. reflexivity.
    + destruct (Z.ltb_spec n 1); [| lia]. rewrite orb_true_r. reflexivity.
  - intros Ha Hn.
    assert (Hb : batch call n s
                 = let '(next, rest) :=
                     splice (_array (queue s)) (nextBatchIndex (queue s) n) n in
                   match map_invoke call next (with_queue (set_array rest) s) with
                   | (Return ps, s2) => (Promise_all ps, s2)
                   | (Throw e, s2) => (Throw e, s2)
                   end).
    { unfold batch.
      destruct (Z.eqb_spec (Z.of_nat (length (_array (queue s)))) 0) as [H0 | _].
      - destruct (_array (queue s)); [contradiction | discriminate].
      - destruct (Z.ltb_spec n 1); [lia | reflexivity]. }
    rewrite Hb, (batch_splice _ _ Hn). clear Hb.
    set (next := if _fifo (queue s) then _ else _).
    set (rest := if _fifo (queue s) then _ else _).
    split; [| split; [| split; [| split]]].
    + pose proof (map_invoke_queue next (with_queue (set_array rest) s)) as Hq.
      destruct (map_invoke call next (with_queue (set_array rest) s))
        as [[ps | e] s2]; exact Hq.
    + subst next. destruct (_fifo (queue s)).
      * apply length_firstn.
      * rewrite length_skipn. lia.
    + intros Hle. subst rest. destruct (_fifo (queue s)).
      * apply skipn_all2. exact Hle.
      * replace (length (_array (queue s)) - Z.to_nat n)%nat with 0%nat by lia.
        reflexivity.
    + intros vs w Hall.
      destruct (map_invoke_all_fulfil next (with_queue (set_array rest) s) vs w Hall)
        as (ps & -> & -> & Hl).
      split; [reflexivity | exact Hl].
    + intros Hnone.
      destruct (map_invoke call next (with_queue (set_array rest) s))
        as [[ps | e] s2] eqn:Em; [| eexists; reflexivity].
      cbn [fst]. unfold Promise_all.
      destruct (first_rejection ps) as [[e d] |] eqn:Er; [eexists; reflexivity |].
      exfalso. eapply Hnone. exact (map_invoke_fulfilled _ _ _ _ Em Er).
Qed.

(** X12: After a first [peek] on a queue with head [h] and no cache, every
    further [peek] delivers what the first one did and calls nothing,
    unless [h] failed with [null] or [undefined]. *)
Lemma peeks_uncached s h rest (n : nat) :
  _cached (queue s) = false ->
  access_order (queue s) = h :: rest ->
  let r := call (func h) (args h) (world s) in
  (forall e, outcome (fst r) = Throw e -> neq_null e = true) ->
  peeks call (S n) s
  = (repeat (outcome (fst r)) (S n),
     sys (cache_outcome (outcome (fst r)) (queue s)) (snd r) (calls s ++ [h])).
Proof.
  intros Hc Ha r Hnn. cbn [peeks]. rewrite (peek_uncached _ _ _ Hc Ha).
  fold r. set (s1 := sys _ _ _).
  assert (Hp : peek call s1 = (outcome (fst r), s1)).
  { unfold peek, peek_start. subst s1. cbn [queue].
    destruct (outcome (fst r)) as [v | e] eqn:Eo; cbn.
    - reflexivity.
    - rewrite (Hnn e eq_refl). reflexivity. }
  assert (Hs : forall m, peeks call m s1 = (repeat (outcome (fst r)) m, s1)).
  { induction m as [| m IH]; [reflexivity |].
    cbn [peeks repeat]. rewrite Hp, IH. reflexivity. }
  rewrite Hs. reflexivity.
Qed.

(** [next()] on a queue with head [h] and no cache. *)
Lemma iter_next_uncached s h rest :
  _cached (queue s) = false ->
  access_order (queue s) = h :: rest ->
  let r := call (func h) (args h) (world s) in
  iter_next call s
  = (match outcome (fst r) with
     | Return v => Return {| value := v; done := false |}
     | Throw e => Throw e
     end,
     sys (set_array (stored (queue s) rest) (queue s)) (snd r) (calls s ++ [h])).
Proof.
  intros Hc Ha. destruct (take_head _ _ _ Ha) as (_ & _ & Hlen & _).
  unfold iter_next, bind, size. rewrite Hlen, (poll_uncached _ _ _ Hc Ha).
  cbv zeta. destruct (outcome _); reflexivity.
Qed.

(** A loop left with [break] in the turn that receives the last value of
    [taken]: [return()] peeks, and so calls, the entry [h] that comes next. *)
Lemma for_await_break_values taken : forall s seen vs w h rest,
  taken <> [] ->
  _cached (queue s) = false ->
  access_order (queue s) = taken ++ h :: rest ->
  all_fulfil call taken (world s) vs w ->
  let r := call (func h) (args h) w in
  for_await_break call (length taken) seen s
  = (match outcome (fst r) with
     | Return _ => Return (seen ++ vs)
     | Throw e => Throw e
     end,
     sys (cache_outcome (outcome (fst r))
            (set_array (stored (queue s) (h :: rest)) (queue s)))
         (snd r) (calls s ++ taken ++ [h])).
Proof.
  induction taken as [| x taken IH]; intros s seen vs w h rest Hne Hc Ha Hall;
    [contradiction |].
  inversion Hall as [| ? ? ? w1 ? v d vs' Hx Hall']; subst. cbv zeta.
  cbn [length for_await_break]. unfold bind at 1.
  rewrite (iter_next_uncached s x (taken ++ h :: rest) Hc Ha), Hx.
  cbn [fst snd outcome settle done value].
  set (s1 := sys _ w1 _).
  assert (Hc1 : _cached (queue s1) = false) by exact Hc.
  assert (Ha1 : access_order (queue s1) = taken ++ h :: rest)
    by apply access_order_stored.
  destruct taken as [| y taken'].
  - inversion Hall'; subst. cbn [length Nat.eqb].
    unfold iter_return, bind.
    rewrite (peek_uncached s1 h rest Hc1 Ha1).
    subst s1. cbn [world queue calls app]. rewrite <- app_assoc.
    destruct (outcome (fst (call (func h) (args h) w))); reflexivity.
  - cbn [length Nat.eqb].
    change (S (length taken')) with (length (y :: taken')).
    rewrite (IH s1 (seen ++ [v]) vs' w h rest ltac:(discriminate) Hc1 Ha1 Hall').
    subst s1. cbn [world queue calls]. rewrite <- !app_assoc.
    reflexivity.
Qed.

(** A loop in which the call of [h] fails after the values of [taken]:
    the failure reaches the consumer, and the entries after [h] are
    neither called nor removed. *)
Lemma for_await_break_failure taken : forall s seen vs w h rest (k : nat) e,
  (length taken < k)%nat ->
  _cached (queue s) = false ->
  access_order (queue s) = taken ++ h :: rest ->
  all_fulfil call taken (world s) vs w ->
  let r := call (func h) (args h) w in
  outcome (fst r) = Throw e ->
  for_await_break call k seen s
  = (Throw e,
     sys (set_array (stored (queue s) rest) (queue s))
         (snd r) (calls s ++ taken ++ [h])).
Proof.
  induction taken as [| x taken IH];
    intros s seen vs w h rest k e Hk Hc Ha Hall r He;
    (destruct k as [| k]; [cbn [length] in Hk; lia |]);
    inversion Hall as [| ? ? ? w1 ? v d vs' Hx Hall']; subst;
    cbn [for_await_break]; unfold bind at 1.
  - rewrite (iter_next_uncached s h rest Hc Ha). fold r. rewrite He.
    reflexivity.
  - rewrite (iter_next_uncached s x (taken ++ h :: rest) Hc Ha), Hx.
    cbn [fst snd outcome settle done value].
    set (s1 := sys _ w1 _).
    assert (Hc1 : _cached (queue s1) = false) by exact Hc.
    assert (Ha1 : access_order (queue s1) = taken ++ h :: rest)
      by apply access_order_stored.
    cbn [length] in Hk.
    destruct (Nat.eqb_spec k 0) as [-> | _]; [lia |].
    rewrite (IH s1 (seen ++ [v]) vs' w h rest k e ltac:(lia) Hc1 Ha1 Hall' He).
    subst s1. cbn [world queue calls]. rewrite <- !app_assoc.
    reflexivity.
Qed.

Lemma set_cached_false_id q : _cached q = false -> set_cached false q = q.
Proof. destruct q as [a c r e f]. cbn. intros ->. reflexivity. Qed.

(** [next()] on a queue with head [x] and the cache present: what the
    cache holds is delivered and nothing is called. *)
Lemma iter_next_cached s x order' :
  _cached (queue s) = true ->
  access_order (queue s) = x :: order' ->
  iter_next call s
  = (if neq_null (_error (queue s)) then Throw (_error (queue s))
     else Return {| value := _result (queue s); done := false |},
     with_queue (fun q => set_cached false (set_array (stored q order') q)) s).
Proof.
  intros Hc Ha. destruct (take_head _ _ _ Ha) as (_ & _ & Hlen & _).
  destruct (poll_cached s x order' Hc Ha) as (c & Hd & Hp).
  unfold iter_next, bind, size. rewrite Hlen, Hp.
  unfold cache in Hd. rewrite Hc in Hd.
  destruct (neq_null (_error (queue s))); cbn [deliver] in Hd;
    injection Hd as <-; reflexivity.
Qed.

(** C6 (as amended): a [for await] loop over a queue whose entries in
    access order are [taken], then [h], then [rest].  The entries of
    [taken] that are called are all of them, or all but the first when the
    cache slot is present at the start: the first [next()] then delivers
    what the slot holds and calls nothing.
    - Left with [break] in the turn that receives the last value of
      [taken], the loop leaves [h] and [rest] queued, but the [return()]
      of the iterator peeks: [h] is called, once, and the cache is left
      with its outcome as [peek] stores it (a failure of [h] is thrown to
      the consumer); no entry of [rest] is called.
    - When the loop goes on and the call of [h] fails, the failure reaches
      the consumer, [h] is gone, the cache is absent, and the entries of
      [rest] are still queued, none of them called.
    - When the cache slot holds a failure at the start, the first
      [next()] throws it to the consumer and calls nothing; the entries
      after the first are still queued. *)
Theorem C6_early_exit s seen taken h rest vs w :
  access_order (queue s) = taken ++ h :: rest ->
  let called := if _cached (queue s) then tl taken else taken in
  let first := match cache (queue s) with Success v => [v] | _ => [] end in
  let r := call (func h) (args h) w in
  (taken <> [] ->
   (forall e, cache (queue s) <> Failure e) ->
   all_fulfil call called (world s) vs w ->
   for_await_break call (length taken) seen s
   = (match outcome (fst r) with
      | Return _ => Return (seen ++ first ++ vs)
      | Throw e => Throw e
      end,
      sys (cache_outcome (outcome (fst r))
             (set_array (stored (queue s) (h :: rest)) (queue s)))
          (snd r) (calls s ++ called ++ [h]))) /\
  (forall (k : nat) e,
     (taken = [] -> _cached (queue s) = false) ->
     (forall e', cache (queue s) <> Failure e') ->
     all_fulfil call called (world s) vs w ->
     (length taken < k)%nat ->
     outcome (fst r) = Throw e ->
     for_await_break call k seen s
     = (Throw e,
        sys (set_cached false (set_array (stored (queue s) rest) (queue s)))
            (snd r) (calls s ++ called ++ [h]))) /\
  (forall (k : nat) e,
     (1 <= k)%nat ->
     cache (queue s) = Failure e ->
     for_await_break call k seen s
     = (Throw e,
        sys (set_cached false
               (set_array (stored (queue s) (tl (taken ++ h :: rest)))
                  (queue s)))
            (world s) (calls s))).
Proof.
  intros Ha. cbv zeta. unfold cache.
  destruct (_cached (queue s)) eqn:Hc.
  - (* the cache slot is present at the start *)
    destruct (taken ++ h :: rest) as [| x order'] eqn:Eo;
      [destruct taken; discriminate |].
    pose proof (iter_next_cached s x order' Hc Ha) as Hn.
    destruct (neq_null (_error (queue s))) eqn:He.
    + (* it holds a failure *)
      split; [intros _ Hnf; exfalso; exact (Hnf _ eq_refl) |].
      split; [intros k e _ Hnf; exfalso; exact (Hnf _ eq_refl) |].
      intros k e Hk [= <-]. destruct k as [| k]; [lia |].
      cbn [for_await_break tl]. unfold bind. rewrite Hn. reflexivity.
    + (* it holds a value *)
      split; [| split; [| intros k e _ Hd; discriminate Hd]].
      * intros Hne _ Hall. destruct taken as [| x' taken']; [contradiction |].
        injection Eo as -> <-. cbn [tl] in Hall.
        cbn [length for_await_break]. unfold bind at 1. rewrite Hn.
        cbn [done value].
        set (s1 := with_queue _ s) in *.
        assert (Hc1 : _cached (queue s1) = false) by reflexivity.
        assert (Ha1 : access_order (queue s1) = taken' ++ h :: rest)
          by exact (access_order_stored (queue s) _).
        destruct taken' as [| y taken''].
        -- inversion Hall; subst. cbn [length Nat.eqb tl app].
           unfold iter_return, bind.
           rewrite (peek_uncached s1 h rest Hc1 Ha1).
           subst s1. cbn [world queue calls with_queue app].
           destruct (outcome (fst (call (func h) (args h) (world s))));
             reflexivity.
        -- cbn [length Nat.eqb].
           change (S (length taken'')) with (length (y :: taken'')).
           rewrite (for_await_break_values (y :: taken'') s1
                      (seen ++ [_result (queue s)]) vs w h rest
                      ltac:(discriminate) Hc1 Ha1 Hall).
           subst s1. cbn [world queue calls with_queue tl].
           rewrite <- !app_assoc.
           destruct (outcome (fst (call (func h) (args h) w))); reflexivity.
      * intros k e Hnil _ Hall Hk Hout.
        destruct taken as [| x' taken'];
          [specialize (Hnil eq_refl); discriminate |].
        injection Eo as -> <-. cbn [tl] in Hall. cbn [length] in Hk.
        destruct k as [| k]; [lia |].
        cbn [for_await_break]. unfold bind at 1. rewrite Hn.
        cbn [done value].
        set (s1 := with_queue _ s) in *.
        assert (Hc1 : _cached (queue s1) = false) by reflexivity.
        assert (Ha1 : access_order (queue s1) = taken' ++ h :: rest)
          by exact (access_order_stored (queue s) _).
        destruct (Nat.eqb_spec k 0) as [-> | _]; [lia |].
        rewrite (for_await_break_failure taken' s1
                   (seen ++ [_result (queue s)]) vs w h rest k e
                   ltac:(lia) Hc1 Ha1 Hall Hout).
        subst s1. cbn [world queue calls with_queue tl]. reflexivity.
  - (* the cache slot is absent at the start *)
    split; [| split; [| intros k e _ Hd; discriminate Hd]].
    + intros Hne _ Hall.
      rewrite (for_await_break_values taken s seen vs w h rest Hne Hc Ha Hall).
      reflexivity.
    + intros k e _ _ Hall Hk Hout.
      rewrite (for_await_break_failure taken s seen vs w h rest k e
                 Hk Hc Ha Hall Hout).
      change (set_cached false (set_array (stored (queue s) rest) (queue s)))
        with (set_array (stored (queue s) rest) (set_cached false (queue s))).
      rewrite (set_cached_false_id _ Hc). reflexivity.
Qed.

(** On a queue with no cache whose head [h] returns a promise, a [peek]
    waits for that promise with the cache still absent, so a second
    [peek] begun before the promise settles calls [h] again.  A [peek]
    begun after the first one has finished is served from the cache and
    calls nothing. *)
Lemma overlapping_peeks_call_twice s h rest p w :
  _cached (queue s) = false ->
  access_order (queue s) = h :: rest ->
  call (func h) (args h) (world s) = (Returns p, w) ->
  let s1 := snd (peek_start call s) in
  let s2 := snd (peek_start call s1) in
  let s3 := snd (peek_resume p s1) in
  fst (peek_start call s) = Await p /\
  calls s1 = calls s ++ [h] /\
  _cached (queue s1) = false /\
  calls s2 = calls s ++ [h; h] /\
  calls (snd (peek_overlapped call s)) = calls s ++ [h; h] /\
  (exists c, peek_start call s3 = (Done c, s3)).
Proof.
  intros Hc Ha Hcall. destruct (take_head _ _ _ Ha) as (Hh & _ & _ & Hlen).
  unfold head in Hh.
  assert (H1 : peek_start call s = (Await p, sys (queue s) w (calls s ++ [h]))).
  { unfold peek_start, invoke. rewrite Hc, Hlen, Hh, Hcall. reflexivity. }
  set (s1 := sys (queue s) w (calls s ++ [h])) in *.
  assert (H2 : calls (snd (peek_start call s1)) = calls s ++ [h; h] /\
               forall r2 s2, peek_start call s1 = (r2, s2) ->
                 calls s2 = calls s ++ [h; h]).
  { unfold peek_start, invoke. subst s1. cbn [queue world calls].
    rewrite Hc, Hlen, Hh.
    destruct (call (func h) (args h) w) as [[p2 | e] w2];
      cbn [snd calls with_queue]; rewrite <- app_assoc;
      (split; [reflexivity | intros ? ? [= <- <-]; reflexivity]). }
  destruct H2 as [H2 H2'].
  cbv zeta. rewrite H1. cbn [fst snd].
  split; [reflexivity |].
  split; [reflexivity |].
  split; [exact Hc |].
  split; [exact H2 |].
  split.
  - unfold peek_overlapped. rewrite H1.
    destruct (peek_start call s1) as [r2 s2] eqn:E2.
    specialize (H2' r2 s2 eq_refl).
    destruct r2 as [c2 | p2].
    + destruct p; cbn [peek_resume snd calls with_queue]; exact H2'.
    + destruct (delay_of p2 <? delay_of p)%nat;
        destruct p, p2; cbn [peek_resume snd calls with_queue]; exact H2'.
  - unfold peek_start.
    destruct p as [v d | e d]; cbn [peek_resume snd queue with_queue
      cache_result cache_error set_cached set_error set_result _cached _error
      _result].
    + eexists. reflexivity.
    + destruct (neq_null e); eexists; reflexivity.
Qed.

Lemma array_of_access_order q (l : list PromiseQueueItem) :
  access_order q = l -> _array q = stored q l.
Proof.
  unfold access_order, stored. destruct (_fifo q); intros <-;
    [reflexivity | symmetry; apply rev_involutive].
Qed.

Lemma polls_of_empty (n : nat) s :
  _array (queue s) = [] ->
  polls call n s = (repeat (Return VNull) n, s).
Proof.
  intros Ha. induction n as [| n IH]; [reflexivity |].
  cbn [polls repeat]. rewrite (poll_empty s Ha), IH. reflexivity.
Qed.

Lemma polls_uncached (n : nat) : forall s,
  _cached (queue s) = false ->
  let out := polls call n s in
  calls (snd out) = calls s ++ firstn n (access_order (queue s)) /\
  access_order (queue (snd out)) = skipn n (access_order (queue s)) /\
  _fifo (queue (snd out)) = _fifo (queue s) /\
  length (fst out) = n.
Proof.
  induction n as [| n IH]; intros s Hc; cbv zeta.
  - cbn. rewrite app_nil_r. repeat split.
  - cbn [polls]. destruct (access_order (queue s)) as [| h rest] eqn:Ha.
    + apply empty_access_order in Ha.
      rewrite (poll_empty s Ha), (polls_of_empty n s Ha).
      cbn [fst snd firstn skipn length]. rewrite app_nil_r, repeat_length.
      repeat split. apply empty_access_order. exact Ha.
    + rewrite (poll_uncached s h rest Hc Ha).
      match goal with |- context [polls call n ?s1] =>
        destruct (IH s1 Hc) as (H1 & H2 & H3 & H4);
        destruct (polls call n s1) as [cs s2]
      end.
      cbn [fst snd queue calls length firstn skipn] in *.
      rewrite access_order_stored in H1, H2.
      rewrite H1, <- app_assoc. repeat split; try assumption. lia.
Qed.

Lemma polls_effect (n : nat) s :
  let order := access_order (queue s) in
  let out := polls call n s in
  calls (snd out)
  = calls s ++ (if _cached (queue s) then tl (firstn n order)
                else firstn n order) /\
  access_order (queue (snd out)) = skipn n order /\
  _fifo (queue (snd out)) = _fifo (queue s) /\
  length (fst out) = n.
Proof.
  cbv zeta. destruct (_cached (queue s)) eqn:Hc;
    [| destruct (polls_uncached n s Hc) as (H1 & H2 & H3 & H4);
       repeat split; assumption].
  destruct n as [| n]; [cbn; rewrite app_nil_r; repeat split |].
  cbn [polls]. destruct (access_order (queue s)) as [| h rest] eqn:Ha.
  - apply empty_access_order in Ha.
    rewrite (poll_empty s Ha), (polls_of_empty n s Ha).
    cbn [fst snd firstn skipn length tl]. rewrite app_nil_r, repeat_length.
    repeat split. apply empty_access_order. exact Ha.
  - destruct (poll_cached s h rest Hc Ha) as (c & _ & ->).
    match goal with |- context [polls call n ?s1] =>
      destruct (polls_uncached n s1 eq_refl) as (H1 & H2 & H3 & H4);
      destruct (polls call n s1) as [cs s2]
    end.
    cbn [fst snd queue calls length firstn skipn tl with_queue] in *.
    change (set_cached false (set_array (stored (queue s) rest) (queue s)))
      with (set_array (stored (queue s) rest) (set_cached false (queue s)))
      in H1, H2.
    change (stored (queue s) rest)
      with (stored (set_cached false (queue s)) rest) in H1, H2.
    rewrite access_order_stored in H1, H2.
    repeat split; try assumption. lia.
Qed.


(** What [batch] leaves in the queue object. *)
Lemma batch_queue s (n : Z) :
  _array (queue s) <> [] -> 1 <= n ->
  batch call n s
  = let k := Z.to_nat n in
    let a := _array (queue s) in
    let next := if _fifo (queue s) then firstn k a else skipn (length a - k) a in
    let rest := if _fifo (queue s) then skipn k a else firstn (length a - k) a in
    match map_invoke call next (with_queue (set_array rest) s) with
    | (Return ps, s2) => (Promise_all ps, s2)
    | (Throw e, s2) => (Throw e, s2)
    end.
Proof.
  intros Ha Hn. unfold batch.
  destruct (Z.eqb_spec (Z.of_nat (length (_array (queue s)))) 0) as [H0 | _].
  - destruct (_array (queue s)); [contradiction | discriminate].
  - destruct (Z.ltb_spec n 1); [lia |]. cbn [orb].
    rewrite (batch_splice _ _ Hn). reflexivity.
Qed.

(** X9: [batch(n)] takes out of the queue the entries that [n] calls of
    [poll] take out, in either mode and for every integer [n]. *)
Theorem batch_removes_what_polls_remove s (n : Z) :
  _array (queue (snd (batch call n s)))
  = _array (queue (snd (polls call (Z.to_nat n) s))).
Proof.
  destruct (polls_effect (Z.to_nat n) s) as (_ & Hp & Hf & _).
  cbv zeta in Hp, Hf.
  rewrite (array_of_access_order _ _ Hp). unfold stored. rewrite Hf.
  destruct (Z.ltb_spec n 1) as [Hlt | Hge].
  - unfold batch. destruct (Z.ltb_spec n 1); [| lia]. rewrite orb_true_r.
    replace (Z.to_nat n) with 0%nat by lia. cbn [snd skipn].
    apply (array_of_access_order _ _ eq_refl).
  - destruct (_array (queue s)) as [| x a] eqn:Ea.
    + unfold batch. rewrite Ea. cbn [length Z.of_nat Z.eqb orb snd].
      unfold access_order. rewrite Ea.
      destruct (_fifo (queue s)); cbn [rev]; rewrite skipn_nil; rewrite ?Ea;
        reflexivity.
    + rewrite batch_queue by first [rewrite Ea; discriminate | exact Hge].
      cbv zeta.
      match goal with |- context [map_invoke call ?nx ?s1] =>
        pose proof (map_invoke_queue nx s1) as Hq;
        destruct (map_invoke call nx s1) as [[ps | e] s2]
      end; cbn [snd] in *; rewrite Hq; cbn [queue with_queue set_array _array];
        unfold access_order; rewrite Ea;
        destruct (_fifo (queue s)); try reflexivity;
        rewrite skipn_rev, rev_involutive; reflexivity.
Qed.

(** [map] up to a function that throws: the functions before it are
    called, the ones after it are not. *)
Lemma map_invoke_raise pre : forall s ps w bad post e,
  all_return call pre (world s) ps w ->
  fst (call (func bad) (args bad) w) = Raises e ->
  map_invoke call (pre ++ bad :: post) s
  = (Throw e,
     sys (queue s) (snd (call (func bad) (args bad) w)) (calls s ++ pre ++ [bad])).
Proof.
  induction pre as [| it pre IH]; intros s ps w bad post e Hall He;
    inversion Hall; subst.
  - cbn [app map_invoke]. unfold invoke.
    destruct (call (func bad) (args bad) (world s)) as [r w']. cbn in He.
    subst r. reflexivity.
  - cbn [app map_invoke]. unfold invoke.
    match goal with H : call _ _ _ = _ |- _ => rewrite H end.
    match goal with |- context [map_invoke call _ ?s1] =>
      rewrite (IH s1 ps0 w bad post e); [| assumption | assumption]
    end.
    cbn [queue calls]. rewrite <- app_assoc. reflexivity.
Qed.

(** X10: When a function of a batch throws instead of returning a promise,
    [batch] throws what it threw; the entries of the batch that come
    after it have been removed from the queue and are never called. *)
Theorem batch_throw_drops_rest s (n : Z) pre bad post ps w e :
  1 <= n ->
  let k := Z.to_nat n in
  let a := _array (queue s) in
  let next := if _fifo (queue s) then firstn k a else skipn (length a - k) a in
  let rest := if _fifo (queue s) then skipn k a else firstn (length a - k) a in
  next = pre ++ bad :: post ->
  all_return call pre (world s) ps w ->
  fst (call (func bad) (args bad) w) = Raises e ->
  batch call n s
  = (Throw e,
     sys (set_array rest (queue s)) (snd (call (func bad) (args bad) w))
         (calls s ++ pre ++ [bad])).
Proof.
  intros Hn k a next rest Hnext Hall He.
  assert (Ha : _array (queue s) <> []).
  { intros Hnil. subst next a. rewrite Hnil in Hnext.
    destruct (_fifo (queue s)); rewrite ?firstn_nil, ?skipn_nil in Hnext;
      destruct pre; discriminate. }
  rewrite (batch_queue s n Ha Hn). cbv zeta. fold k a. fold next rest.
  rewrite Hnext.
  rewrite (map_invoke_raise pre (with_queue (set_array rest) s) ps w bad post e
             Hall He).
  reflexivity.
Qed.

(** X11: A [peek] before a [poll] changes nothing for the caller of [poll]: it
    gets the outcome it would have got, the head has been called once in
    all, and the queue is left with the same entries and no cache.  (A
    head that failed with [null] or [undefined] is the exception.) *)
Theorem peek_then_poll s h rest :
  _cached (queue s) = false ->
  access_order (queue s) = h :: rest ->
  (forall e, outcome (fst (call (func h) (args h) (world s))) = Throw e ->
             neq_null e = true) ->
  let s1 := snd (peek call s) in
  fst (poll call s1) = fst (peek call s) /\
  fst (poll call s1) = fst (poll call s) /\
  calls (snd (poll call s1)) = calls (snd (poll call s)) /\
  calls (snd (poll call s1)) = calls s ++ [h] /\
  world (snd (poll call s1)) = world (snd (poll call s)) /\
  _array (queue (snd (poll call s1))) = _array (queue (snd (poll call s))) /\
  cache (queue (snd (poll call s1))) = Absent.
Proof.
  intros Hc Ha Hnn. cbv zeta.
  rewrite (peek_uncached s h rest Hc Ha), (poll_uncached s h rest Hc Ha).
  cbv zeta. cbn [fst snd].
  set (r := call (func h) (args h) (world s)) in *.
  set (s1 := sys _ (snd r) _).
  assert (Hc1 : _cached (queue s1) = true)
    by (subst s1; cbn [queue]; destruct (outcome (fst r)); reflexivity).
  assert (Ha1 : access_order (queue s1) = h :: rest)
    by (subst s1; cbn [queue]; destruct (outcome (fst r)); exact Ha).
  destruct (poll_cached s1 h rest Hc1 Ha1) as (c & Hd & ->).
  cbn [fst snd with_queue queue world calls _array set_cached set_array].
  assert (Hcc : c = outcome (fst r)).
  { subst s1. cbn [queue] in Hd. unfold cache in Hd.
    destruct (outcome (fst r)) as [v | e] eqn:Eo; cbn in Hd.
    - congruence.
    - rewrite (Hnn e eq_refl) in Hd. cbn in Hd. congruence. }
  subst s1. cbn [queue world calls].
  repeat split; try assumption;
    destruct (outcome (fst r)); reflexivity.
Qed.

(** X13: [element] delivers what [peek] delivers and [remove] what [poll]
    delivers, in the state [peek] or [poll] leaves, except that a [null]
    or [undefined] result is replaced by throwing
    [PromiseQueueEmptyError]; so [element] and [remove] never return
    [null] or [undefined]. *)
Theorem element_remove_never_null s :
  element call s
  = (match fst (peek call s) with
     | Return v =>
         if eq_null v then Throw PromiseQueueEmptyError else Return v
     | Throw e => Throw e
     end,
     snd (peek call s)) /\
  remove call s
  = (match fst (poll call s) with
     | Return v =>
         if eq_null v then Throw PromiseQueueEmptyError else Return v
     | Throw e => Throw e
     end,
     snd (poll call s)) /\
  match fst (element call s) with
  | Return v => eq_null v = false
  | Throw _ => True
  end /\
  match fst (remove call s) with
  | Return v => eq_null v = false
  | Throw _ => True
  end.
Proof.
  unfold element, remove, bind, ret, throw.
  destruct (peek call s) as [[v | e] s1]; destruct (poll call s) as [[v' | e'] s2];
    cbn [fst snd];
    repeat match goal with
           | |- context [eq_null ?x] => destruct (eq_null x) eqn:?
           end;
    repeat split; assumption.
Qed.

(** X14: On a queue with no entry, [remove] throws [PromiseQueueEmptyError]
    whatever the cache holds, [poll] returns [null], [batch] returns the
    empty array, and the three of them change nothing and call nothing. *)
Theorem removal_from_empty s (n : Z) :
  _array (queue s) = [] ->
  remove call s = (Throw PromiseQueueEmptyError, s) /\
  poll call s = (Return VNull, s) /\
  batch call n s = (Return (VArr []), s).
Proof.
  intros Ha. unfold remove, bind. rewrite (poll_empty s Ha).
  repeat split. unfold batch. rewrite Ha. reflexivity.
Qed.

(** X15: After [clear], whatever the queue and its cache held, the queue
    behaves as a new one: [peek] and [poll] return [null], [element] and
    [remove] throw [PromiseQueueEmptyError], [batch] returns the empty
    array, and nothing is called. *)
Theorem clear_resets s (n : Z) :
  let s' := with_queue clear s in
  queue s' = set_fifo (_fifo (queue s)) create /\
  peek call s' = (Return VNull, s') /\
  poll call s' = (Return VNull, s') /\
  element call s' = (Throw PromiseQueueEmptyError, s') /\
  remove call s' = (Throw PromiseQueueEmptyError, s') /\
  batch call n s' = (Return (VArr []), s').
Proof. repeat split. Qed.

Lemma length_access_order q : length (access_order q) = length (_array q).
Proof. unfold access_order. destruct (_fifo q); [| apply length_rev]; reflexivity. Qed.

Lemma length_stored q (l : list PromiseQueueItem) :
  length (stored q l) = length l.
Proof. unfold stored. destruct (_fifo q); [| apply length_rev]; reflexivity. Qed.

(** X16: A [for await] loop over a queue with no cache whose calls all fulfil,
    given turns enough, receives every value, in access order, calls each
    entry once and leaves the queue empty. *)
Theorem for_await_drains (fuel : nat) : forall s seen vs w,
  _cached (queue s) = false ->
  all_fulfil call (access_order (queue s)) (world s) vs w ->
  (length (_array (queue s)) < fuel)%nat ->
  for_await call fuel seen s
  = Some (Return (seen ++ vs),
          sys (set_array [] (queue s)) w (calls s ++ access_order (queue s))).
Proof.
  induction fuel as [| fuel IH]; intros s seen vs w Hc Hall Hf; [lia |].
  cbn [for_await]. destruct (access_order (queue s)) as [| h rest] eqn:Ha.
  - inversion Hall; subst. apply empty_access_order in Ha.
    unfold iter_next, bind, size. rewrite Ha, (poll_empty s Ha).
    cbn. rewrite !app_nil_r. destruct s as [[a c r e f] w0 cs]. cbn in Ha.
    subst a. reflexivity.
  - inversion Hall as [| ? ? ? w1 ? v d vs' Hx Hall']; subst.
    rewrite (iter_next_uncached s h rest Hc Ha), Hx.
    cbn [fst snd outcome settle done value].
    match goal with |- context [for_await call fuel _ ?s1] =>
      rewrite (IH s1 (seen ++ [v]) vs' w)
    end.
    + cbn [queue calls]. rewrite access_order_stored, <- !app_assoc.
      reflexivity.
    + exact Hc.
    + cbn [queue world]. rewrite access_order_stored. exact Hall'.
    + cbn [queue set_array _array]. rewrite length_stored.
      rewrite <- length_access_order, Ha in Hf. cbn [length] in Hf. lia.
Qed.

(** X17: Two overlapping calls of [peek] on a head that returns a promise each
    time: each caller gets the outcome of its own call, and the cache is
    left with the outcome of the promise that settles last, which is the
    one of the first call when the second settles sooner. *)
Theorem overlapping_peeks_cache s h rest p1 w1 p2 w2 :
  _cached (queue s) = false ->
  access_order (queue s) = h :: rest ->
  call (func h) (args h) (world s) = (Returns p1, w1) ->
  call (func h) (args h) w1 = (Returns p2, w2) ->
  peek_overlapped call s
  = (settle p1, settle p2,
     sys (cache_outcome
            (settle (if (delay_of p2 <? delay_of p1)%nat then p1 else p2))
            (queue s))
         w2 (calls s ++ [h; h])).
Proof.
  intros Hc Ha H1 H2. destruct (take_head _ _ _ Ha) as (Hh & _ & _ & Hlen).
  unfold head in Hh.
  unfold peek_overlapped, peek_start, invoke.
  rewrite Hc, Hlen, Hh, H1. cbn [queue world calls].
  rewrite Hc, Hlen, Hh, H2. rewrite <- app_assoc. cbn [app].
  destruct (delay_of p2 <? delay_of p1)%nat; destruct p1, p2; reflexivity.
Qed.

(** X18: [add] on a FIFO queue that has a head leaves the head where it is; on
    a FILO queue, and on an empty queue, the entry added is the new head.
    The entry holds the function and the arguments as given. *)
Theorem head_after_add (f : Func) (actuals : list Val) q :
  head (add f actuals q)
  = if _fifo q then
      match head q with
      | Some h => Some h
      | None => Some (item f actuals)
      end
    else Some (item f actuals).
Proof.
  assert (Hargs : match actuals with [] => [] | _ => actuals end = actuals)
    by (destruct actuals; reflexivity).
  unfold head, add, nextIndex. cbn [_array _fifo set_array]. rewrite Hargs.
  destruct (_fifo q).
  - destruct (_array q); reflexivity.
  - apply at_index_last.
Qed.

(** X19: On a FILO queue with no cache the queue is a stack: [poll] after
    [add] calls the entry just added and leaves the queue object as it
    was before the [add]. *)
Theorem filo_add_then_poll (f : Func) (actuals : list Val) s :
  _fifo (queue s) = false ->
  _cached (queue s) = false ->
  let r := call f actuals (world s) in
  poll call (with_queue (add f actuals) s)
  = (outcome (fst r), sys (queue s) (snd r) (calls s ++ [item f actuals])).
Proof.
  intros Hf Hc.
  assert (Hargs : match actuals with [] => [] | _ => actuals end = actuals)
    by (destruct actuals; reflexivity).
  assert (Ha : access_order (queue (with_queue (add f actuals) s))
               = item f actuals :: access_order (queue s)).
  { unfold access_order, add. cbn [with_queue queue set_array _fifo _array].
    rewrite Hf, Hargs, rev_unit. reflexivity. }
  rewrite (poll_uncached (with_queue (add f actuals) s) _ _ Hc Ha).
  cbn [with_queue queue world calls func args]. cbv zeta.
  f_equal. f_equal.
  unfold stored, access_order. cbn [add set_array _fifo _array].
  rewrite Hf, rev_involutive. destruct s as [[a c r0 e fi] w cs]. reflexivity.
Qed.

Lemma cache_outcome_tidy (c : Completion Val) q :
  cache_tidy (cache_outcome c q).
Proof. destruct c; unfold cache_tidy; cbn; [discriminate | reflexivity]. Qed.

Lemma peek_tidy s :
  cache_tidy (queue s) -> cache_tidy (queue (snd (peek call s))).
Proof.
  intros Ht. unfold peek, peek_start, invoke.
  destruct (_cached (queue s)).
  - destruct (neq_null (_error (queue s))); exact Ht.
  - destruct (0 <? Z.of_nat (length (_array (queue s)))); [| exact Ht].
    destruct (at_index (_array (queue s)) (nextIndex (queue s))) as [it |];
      [| exact Ht].
    destruct (call (func it) (args it) (world s)) as [[[v d | e d] | e] w];
      cbn [snd peek_resume with_queue queue].
    + apply (cache_outcome_tidy (Return v)).
    + apply (cache_outcome_tidy (Throw e)).
    + apply (cache_outcome_tidy (Throw e)).
Qed.

Lemma poll_tidy s :
  cache_tidy (queue s) -> cache_tidy (queue (snd (poll call s))).
Proof.
  intros Ht. unfold poll, invoke.
  destruct (Z.of_nat (length (_array (queue s))) =? 0); [exact Ht |].
  destruct (splice (_array (queue s)) (nextIndex (queue s)) 1) as [removed a'].
  destruct (at_index removed 0) as [it |]; [| exact Ht].
  destruct (_cached (queue s)).
  - destruct (neq_null (_error (queue s))); exact Ht.
  - cbn [with_queue world queue calls].
    destruct (call (func it) (args it) (world s)) as [[p | e] w]; exact Ht.
Qed.

Lemma batch_tidy s (n : Z) :
  cache_tidy (queue s) -> cache_tidy (queue (snd (batch call n s))).
Proof.
  intros Ht. unfold batch.
  destruct ((Z.of_nat (length (_array (queue s))) =? 0) || (n <? 1));
    [exact Ht |].
  destruct (splice (_array (queue s)) (nextBatchIndex (queue s) n) n)
    as [next a'].
  pose proof (map_invoke_queue next (with_queue (set_array a') s)) as Hq.
  destruct (map_invoke call next (with_queue (set_array a') s))
    as [[ps | e] s2]; cbn [snd] in *; rewrite Hq; exact Ht.
Qed.

(** X21: Whatever sequence of public operations has run on a new queue, the
    cache fields do not hold an error together with a result: when
    [_error] is not [null], [_result] is [null]. *)
Theorem run_cache_tidy (ops : list Op) (w : World) :
  cache_tidy (queue (run call ops (init w))).
Proof.
  assert (H : forall s, cache_tidy (queue s) ->
                        cache_tidy (queue (run call ops s))).
  { induction ops as [| o ops IH]; intros s Ht; [exact Ht |].
    cbn [run fold_left]. apply IH. destruct o; cbn [step].
    - exact Ht.
    - unfold cache_tidy. reflexivity.
    - rewrite element_state. apply peek_tidy, Ht.
    - apply peek_tidy, Ht.
    - rewrite remove_state. apply poll_tidy, Ht.
    - apply poll_tidy, Ht.
    - apply batch_tidy, Ht.
    - exact Ht.
    - exact Ht. }
  apply H. unfold cache_tidy. reflexivity.
Qed.

End Machine.

End PromiseQueueFacts.

(* ------------------------------------------------------------------ *)
(** * The queue of deferred calls on concrete queues *)

Module Scenarios.
Import Js PromiseQueue PromiseQueueFacts Demo.
Local Open Scope string_scope.

(** The test 'simple queuing of timeout'. *)
Example simple_queuing_of_timeout :
  results call
    [Add "timeoutResult" [VStr "hello"; VNum 1000];
     Add "timeoutResult" [VStr "goodbye"; VNum 500];
     Peek; Poll; Remove; Remove] fresh
  = [Return (VStr "hello"); Return (VStr "hello"); Return (VStr "goodbye");
     Throw PromiseQueueEmptyError].
Proof. reflexivity. Qed.

(** The test 'async error handling'. *)
Example async_error_handling :
  results call
    [Add "resolveWith" [VStr "success"]; Add "rejectWith" [MockError];
     Add "resolveWith" [VStr "default"];
     Element; Element; Poll; Element; Peek; Poll; Element; Poll; Peek] fresh
  = [Return (VStr "success"); Return (VStr "success"); Return (VStr "success");
     Throw MockError; Throw MockError; Throw MockError;
     Return (VStr "default"); Return (VStr "default"); Return VNull].
Proof. reflexivity. Qed.

(** The test 'Switch between FIFO/FILO'. *)
Example switch_between_fifo_filo :
  results call
    [Add "asyncAdd" []; Add "asyncAdd" [VNum 1]; Add "asyncAdd" [VNum 2; VNum 3];
     Add "asyncAdd" [VNum 4; VNum 5; VNum 6];
     Add "asyncAdd" [VNum 7; VNum 8; VNum 9; VNum 10];
     UseFILO; Peek; Remove; Remove; UseFIFO; Peek; Remove; Remove; Clear;
     Element] fresh
  = [Return (VNum 34); Return (VNum 34); Return (VNum 15);
     Return (VNum 0); Return (VNum 0); Return (VNum 1);
     Throw PromiseQueueEmptyError].
Proof. reflexivity. Qed.

(** The test 'batching'. *)
Example batching :
  results call
    [Add "timeoutResult" [VStr "Tom"; VNum 1000];
     Add "timeoutResult" [VStr "Jane"; VNum 1000];
     Add "timeoutResult" [VStr "Zack"; VNum 1500];
     Add "timeoutResult" [VStr "Alice"; VNum 2000];
     Add "timeoutResult" [VStr "Bob"; VNum 500];
     Poll; Poll; Batch 2; UseFILO; Batch 2; Batch 2] fresh
  = [Return (VStr "Tom"); Return (VStr "Jane");
     Return (VArr [VStr "Zack"; VStr "Alice"]); Return (VArr [VStr "Bob"]);
     Return (VArr [])].
Proof. reflexivity. Qed.

(** C1, a failing sequence: after [add(a); add(b); peek(); batch(1)] the
    entry [a] is gone and [b] is the head, never called, yet the cache is
    still present and holds the outcome of [a], which the next [peek]
    returns.  The cache outlives its entry in the same way when the mode
    is switched after a [peek], and when an entry is added to a FILO queue
    after a [peek]. *)
Theorem C1_cache_outlives_its_entry :
  let s := run call [Peek; Batch 1]
             (run call [Add "asyncAdd" [VNum 1]; Add "asyncAdd" [VNum 2; VNum 3]]
                fresh) in
  let s' := run call [Add "asyncAdd" [VNum 1]; Add "asyncAdd" [VNum 2; VNum 3];
                      Peek; UseFILO] fresh in
  let s'' := run call [UseFILO; Add "asyncAdd" [VNum 1]; Peek;
                       Add "asyncAdd" [VNum 2; VNum 3]] fresh in
  (head (queue s) = Some five /\ cache (queue s) = Success (VNum 1) /\
   calls s = [one; one] /\ peek call s = (Return (VNum 1), s)) /\
  (head (queue s') = Some five /\ cache (queue s') = Success (VNum 1) /\
   calls s' = [one] /\ peek call s' = (Return (VNum 1), s')) /\
  (head (queue s'') = Some five /\ cache (queue s'') = Success (VNum 1) /\
   calls s'' = [one] /\ peek call s'' = (Return (VNum 1), s'')).
Proof. repeat split. Qed.

(** C2, a failing input: the head is [() => Promise.reject()].  The first
    [peek] throws [undefined]; the second and the third return [null]
    instead of throwing it again.  The function is called once. *)
Theorem C2_null_failure_not_thrown_again :
  fst (peeks call 3 one_rejection)
  = [Throw VUndefined; Return VNull; Return VNull] /\
  calls (snd (peeks call 3 one_rejection)) = [item "rejectWith" []] /\
  size (queue (snd (peeks call 3 one_rejection))) = 1.
Proof. repeat split. Qed.

(** C4, a failing state: [add(a); peek(); batch(1)] reaches a queue with
    no entry and the cache present, on which [peek] returns the cached
    value of [a], not [null]. *)
Theorem C4_peek_on_emptied_queue :
  let s := run call [Add "asyncAdd" [VNum 1]; Peek; Batch 1] fresh in
  reachable call s /\ _array (queue s) = [] /\
  peek call s = (Return (VNum 1), s).
Proof.
  cbv zeta. split; [| split; reflexivity].
  exists 0%nat, [Add "asyncAdd" [VNum 1]; Peek; Batch 1]. reflexivity.
Qed.

(** C5, the claim as stated fails: two entries, the second one's call
    rejects; [batch(5)] removes both and throws the rejection, it returns
    no two outcomes. *)
Lemma C5_failed_call_fails_batch :
  size (queue success_then_failure) = 2 /\
  fst (batch call 5 success_then_failure) = Throw MockError /\
  _array (queue (snd (batch call 5 success_then_failure))) = [] /\
  ~ (exists vs, fst (batch call 5 success_then_failure) = Return (VArr vs)).
Proof.
  repeat split. intros [vs H]. discriminate H.
Qed.

(** C6, the claim as stated fails: of three entries, a loop left with
    [break] at the first value leaves [five] and [fifteen] queued, and
    [five] has been called. *)
Lemma C6_break_calls_next_entry :
  let out := for_await_break call 1 [] three_sums in
  fst out = Return [VNum 1] /\
  _array (queue (snd out)) = [five; fifteen] /\
  calls (snd out) = [one; five] /\
  cache (queue (snd out)) = Success (VNum 5).
Proof. repeat split. Qed.

(** C7, failing inputs: the one entry of the queue is [async () => {}];
    [element] and [remove] throw [PromiseQueueEmptyError] although [size]
    is 1.  And on the queue that [add(a); peek(); batch(1)] leaves, of
    size 0, [element] returns the cached value and [peek] does not return
    [null]. *)
Theorem C7_empty_error_on_nonempty_queue :
  let s := run call [Add "asyncAdd" [VNum 1]; Peek; Batch 1] fresh in
  (size (queue one_void) = 1 /\
   fst (element call one_void) = Throw PromiseQueueEmptyError /\
   fst (remove call one_void) = Throw PromiseQueueEmptyError) /\
  (size (queue s) = 0 /\
   fst (element call s) = Return (VNum 1) /\
   fst (peek call s) = Return (VNum 1)).
Proof. repeat split. Qed.

(** C3, failing inputs.  After [add(() => Promise.reject()); peek()],
    which threw [undefined], [poll] returns [null] instead of throwing the
    failure that [peek] cached.  After [useFILO(); add(a); peek(); add(b)]
    the head is [b], never called; [poll] removes [b], does not call it
    and returns the outcome cached for [a]. *)
Theorem C3_poll_delivers_wrong_outcome :
  let s := run call [Peek] one_rejection in
  let s' := run call [UseFILO; Add "asyncAdd" [VNum 1]; Peek;
                      Add "asyncAdd" [VNum 2; VNum 3]] fresh in
  (fst (peek call one_rejection) = Throw VUndefined /\
   _cached (queue s) = true /\
   poll call s
   = (Return VNull,
      sys (set_cached false (set_array [] (queue s))) 0%nat
          [item "rejectWith" []])) /\
  (head (queue s') = Some five /\
   calls s' = [one] /\
   fst (poll call s') = Return (VNum 1) /\
   _array (queue (snd (poll call s'))) = [one] /\
   calls (snd (poll call s')) = [one]).
Proof. repeat split. Qed.

(** C9, a failing input: two overlapping calls of [peek] on a queue whose
    one entry hands out tickets; the function is called twice, and the
    two callers get different tickets. *)
Theorem C9_head_called_twice :
  fst (peek_overlapped call one_ticket) = (Return (VNum 1), Return (VNum 2)) /\
  calls (snd (peek_overlapped call one_ticket))
  = [item "ticket" []; item "ticket" []] /\
  _array (queue (snd (peek_overlapped call one_ticket))) = [item "ticket" []].
Proof. repeat split. Qed.

(** C5 on the queue of three sums: [batch(2)] returns [[1, 5]]. *)
Lemma C5_batch_witness :
  _array (queue three_sums) <> [] /\ 1 <= 2 /\
  all_fulfil call [one; five] (world three_sums) [VNum 1; VNum 5] 0%nat /\
  batch call 2 three_sums
  = (Return (VArr [VNum 1; VNum 5]),
     sys (set_array [fifteen] (queue three_sums)) 0%nat [one; five]).
Proof.
  assert (Ha : _array (queue three_sums) <> []) by discriminate.
  assert (Hn : 1 <= 2) by discriminate.
  assert (Hall : all_fulfil call [one; five] (world three_sums)
                   [VNum 1; VNum 5] 0%nat).
  { econstructor; [reflexivity |]. econstructor; [reflexivity |]. constructor. }
  split; [exact Ha |]. split; [exact Hn |]. split; [exact Hall |].
  destruct (C5_batch World call three_sums 2) as [_ H].
  destruct (H Ha Hn) as (_ & _ & _ & Hok & _).
  exact (proj1 (Hok [VNum 1; VNum 5] 0%nat Hall)).
Defined.

(** C6 on the queue of three sums after a [peek], the loop left at the
    first value: [one] is not called again, [five] is called by
    [return()], and [fifteen] is left alone. *)
Lemma C6_early_exit_witness :
  let s := run call [Peek] three_sums in
  access_order (queue s) = ([one] ++ five :: [fifteen])%list /\
  calls s = [one] /\
  for_await_break call 1 [] s
  = (Return [VNum 1],
     sys (cache_outcome (Return (VNum 5))
            (set_array [five; fifteen] (queue s)))
         0%nat [one; five]).
Proof.
  cbv zeta. split; [reflexivity |]. split; [reflexivity |].
  destruct (C6_early_exit World call (run call [Peek] three_sums) [] [one] five
              [fifteen] [] 0%nat eq_refl) as [H _].
  exact (H ltac:(discriminate) ltac:(discriminate)
           (all_fulfil_nil World call 0%nat)).
Defined.

(** As in the test 'async iterator': ten entries, the loop run to its
    end, and the loop left at the seventh value. *)
Example async_iterator :
  let q := run call
             (map (fun i => Add "ticket" [VNum i]) [1; 2; 3; 4; 5; 6; 7; 8; 9; 10])
             fresh in
  option_map fst (for_await call 11 [] q)
  = Some (Return (map VNum [1; 2; 3; 4; 5; 6; 7; 8; 9; 10])) /\
  length (fst (polls call 10 q)) = 10%nat /\
  size (queue (snd (for_await_break call 7 [] q))) = 3.
Proof. repeat split. Qed.

Lemma batch_throw_drops_rest_witness :
  batch call 3 thrower_second
  = (Throw MockError,
     sys (set_array [item "resolveWith" [VNum 4]] (queue thrower_second)) 0%nat
         [item "resolveWith" [VNum 1]; item "throwNow" [MockError]]).
Proof.
  assert (Hall : all_return call [item "resolveWith" [VNum 1]]
                   (world thrower_second) [Fulfilled (VNum 1) 0] 0%nat).
  { econstructor; [reflexivity | constructor]. }
  exact (batch_throw_drops_rest World call thrower_second 3
           [item "resolveWith" [VNum 1]] (item "throwNow" [MockError])
           [item "resolveWith" [VNum 3]] [Fulfilled (VNum 1) 0] 0%nat MockError
           ltac:(discriminate) eq_refl Hall eq_refl).
Defined.

Lemma peek_then_poll_witness :
  fst (poll call (snd (peek call three_sums))) = fst (poll call three_sums) /\
  calls (snd (poll call (snd (peek call three_sums)))) = [one].
Proof.
  assert (Hnn : forall e,
            outcome (fst (call (func one) (args one) (world three_sums)))
            = Throw e -> neq_null e = true) by discriminate.
  destruct (peek_then_poll World call three_sums one [five; fifteen]
              eq_refl eq_refl Hnn) as (_ & H2 & _ & H4 & _).
  exact (conj H2 H4).
Defined.

Lemma removal_from_empty_witness :
  _array (queue fresh) = [] /\
  remove call fresh = (Throw PromiseQueueEmptyError, fresh).
Proof.
  split; [reflexivity |].
  exact (proj1 (removal_from_empty World call fresh 1 eq_refl)).
Defined.

Lemma for_await_drains_witness :
  for_await call 4 [] three_sums
  = Some (Return [VNum 1; VNum 5; VNum 15],
          sys (set_array [] (queue three_sums)) 0%nat [one; five; fifteen]).
Proof.
  assert (Hall : all_fulfil call (access_order (queue three_sums))
                   (world three_sums) [VNum 1; VNum 5; VNum 15] 0%nat).
  { econstructor; [reflexivity |]. econstructor; [reflexivity |].
    econstructor; [reflexivity |]. constructor. }
  exact (for_await_drains World call 4 three_sums [] [VNum 1; VNum 5; VNum 15]
           0%nat eq_refl Hall ltac:(cbn; lia)).
Defined.

Lemma overlapping_peeks_cache_witness :
  peek_overlapped call one_ticket
  = (Return (VNum 1), Return (VNum 2),
     sys (cache_outcome (Return (VNum 2)) (queue one_ticket)) 2%nat
         [item "ticket" []; item "ticket" []]).
Proof.
  exact (overlapping_peeks_cache World call one_ticket (item "ticket" []) []
           (Fulfilled (VNum 1) 0) 1%nat (Fulfilled (VNum 2) 0) 2%nat
           eq_refl eq_refl eq_refl eq_refl).
Defined.

Lemma filo_add_then_poll_witness :
  let s := run call [UseFILO] three_sums in
  poll call (with_queue (add "asyncAdd" [VNum 7; VNum 8]) s)
  = (Return (VNum 15),
     sys (queue s) 0%nat [item "asyncAdd" [VNum 7; VNum 8]]).
Proof.
  exact (filo_add_then_poll World call "asyncAdd" [VNum 7; VNum 8]
           (run call [UseFILO] three_sums) eq_refl eq_refl).
Defined.

Lemma peeks_uncached_witness :
  peeks call 3 three_sums
  = ([Return (VNum 1); Return (VNum 1); Return (VNum 1)],
     sys (cache_outcome (Return (VNum 1)) (queue three_sums)) 0%nat [one]).
Proof.
  assert (Hnn : forall e,
            outcome (fst (call (func one) (args one) (world three_sums)))
            = Throw e -> neq_null e = true) by discriminate.
  exact (peeks_uncached World call three_sums one [five; fifteen] 2
           eq_refl eq_refl Hnn).
Defined.

Lemma run_cache_of_head_witness :
  let ops := [Add "asyncAdd" [VNum 1]; Add "asyncAdd" [VNum 2; VNum 3]; Peek;
              Poll; Element; Add "ticket" []] in
  forallb keeps_cache ops = true /\
  cache_of_head (run call ops (init 0%nat)).
Proof.
  cbv zeta. split; [reflexivity |].
  exact (run_cache_of_head World call
           [Add "asyncAdd" [VNum 1]; Add "asyncAdd" [VNum 2; VNum 3]; Peek;
            Poll; Element; Add "ticket" []] 0%nat eq_refl).
Defined.

End Scenarios.
